(** * MyNEA: the Vernam record cipher and its two-table store

    A shallow embedding of [ndv_cypher.py], of [DBManager.check_db] and
    [DBManager.read_all_from_db] ([dbmanager.py]) and of the record
    operations of [RecordManager] ([recordmanager.py]), followed by the
    properties of the encryption/decryption pipeline.

    Conventions of the embedding:
    - a Python [str] is the list of its codepoints ([pystr]); [ord] is
      the identity and [chr] is partial;
    - a raised exception is the [Raise] outcome of [res]; a [while] loop
      that has not finished within the fuel it was given is [Timeout];
    - [random.randint] reads a stream of entropy; the position in the
      stream is threaded explicitly;
    - message boxes are recorded in a trace, and the user's answer to
      [askquestion] is an input;
    - the conversion SQLite applies to a value written to a column
      declared [STR] belongs to the database engine and is a parameter
      ([stored]) of the operations that write. *)

From Stdlib Require Import ZArith List Lia Bool String Ascii.
From Stdlib Require Import Decimal DecimalPos DecimalZ.
Import ListNotations.
Open Scope Z_scope.

(* ================================================================= *)
(** ** Python values, exceptions and built-ins *)

Module Py.

(** The exceptions the modelled code can raise. *)
Inductive exn := IndexError | ValueError | KeyError | OverflowError.

(** Outcome of a Python computation. *)
Inductive res (A : Type) :=
| Ok (a : A)
| Raise (e : exn)
| Timeout.
Arguments Ok {A} a.
Arguments Raise {A} e.
Arguments Timeout {A}.

Definition bind {A B} (m : res A) (f : A -> res B) : res B :=
  match m with
  | Ok a => f a
  | Raise e => Raise e
  | Timeout => Timeout
  end.

(** A [str]: its codepoints, in order. *)
Definition pystr := list Z.

(** The values stored in tuples and table cells. *)
Inductive pyval :=
| PInt (z : Z)
| PStr (s : pystr).

Definition tuple := list pyval.

Definition pyval_eqb (a b : pyval) : bool :=
  match a, b with
  | PInt x, PInt y => x =? y
  | PStr s, PStr t => if list_eq_dec Z.eq_dec s t then true else false
  | _, _ => false
  end.

Fixpoint tuple_eqb (a b : tuple) : bool :=
  match a, b with
  | [], [] => true
  | x :: a', y :: b' => pyval_eqb x y && tuple_eqb a' b'
  | _, _ => false
  end.

(** Codepoints of a literal. *)
Fixpoint lit (s : string) : pystr :=
  match s with
  | EmptyString => []
  | String c r => Z.of_nat (nat_of_ascii c) :: lit r
  end.

(** [chr(i)]: OverflowError for an argument that does not fit a C
    [int], ValueError for any other argument outside
    [range(0x110000)]. *)
Definition chr (i : Z) : res pystr :=
  if (-2147483648 <=? i) && (i <=? 2147483647) then
    if (0 <=? i) && (i <? 1114112) then Ok [i] else Raise ValueError
  else Raise OverflowError.

(** [ord(c)] of a one-character string. *)
Definition ord (c : Z) : Z := c.

(** [l[i]] for a non-negative index. *)
Definition index {A} (l : list A) (i : nat) : res A :=
  match nth_error l i with
  | Some a => Ok a
  | None => Raise IndexError
  end.

(** [sep.join(l)]. *)
Fixpoint join (sep : pystr) (l : list pystr) : pystr :=
  match l with
  | [] => []
  | [x] => x
  | x :: r => x ++ sep ++ join sep r
  end.

(** [str.isspace] on one codepoint. *)
Definition is_space (c : Z) : bool :=
  ((9 <=? c) && (c <=? 13)) || ((28 <=? c) && (c <=? 32))
  || (c =? 133) || (c =? 160) || (c =? 5760)
  || ((8192 <=? c) && (c <=? 8202))
  || (c =? 8232) || (c =? 8233) || (c =? 8239) || (c =? 8287) || (c =? 12288).

(** [s.split()]: the maximal runs of non-whitespace characters.
    [cur] holds the run being read, last character first. *)
Fixpoint split_from (cur : pystr) (s : pystr) : list pystr :=
  match s with
  | [] => match cur with [] => [] | _ => [List.rev cur] end
  | c :: r =>
      if is_space c
      then match cur with
           | [] => split_from [] r
           | _ => List.rev cur :: split_from [] r
           end
      else split_from (c :: cur) r
  end.

Definition split (s : pystr) : list pystr := split_from [] s.

(** Decimal digits of [str(int)]. *)
Fixpoint digits (u : uint) : pystr :=
  match u with
  | Nil => []
  | D0 r => 48 :: digits r
  | D1 r => 49 :: digits r
  | D2 r => 50 :: digits r
  | D3 r => 51 :: digits r
  | D4 r => 52 :: digits r
  | D5 r => 53 :: digits r
  | D6 r => 54 :: digits r
  | D7 r => 55 :: digits r
  | D8 r => 56 :: digits r
  | D9 r => 57 :: digits r
  end.

(** [str(z)] for an int. *)
Definition str_of_int (z : Z) : pystr :=
  match Z.to_int z with
  | Decimal.Pos u => digits u
  | Decimal.Neg u => 45 :: digits u
  end.

(** [str(v)]. *)
Definition str (v : pyval) : pystr :=
  match v with
  | PInt z => str_of_int z
  | PStr s => s
  end.

(** The codepoints of the digit zero of the scripts of Unicode 14.0
    other than ASCII; the digits one to nine of a script follow its
    zero. *)
Definition digit_zeros : list Z :=
  [1632; 1776; 1984; 2406; 2534; 2662; 2790; 2918; 3046; 3174;
   3302; 3430; 3558; 3664; 3792; 3872; 4160; 4240; 6112; 6160;
   6470; 6608; 6784; 6800; 6992; 7088; 7232; 7248; 42528; 43216;
   43264; 43472; 43504; 43600; 44016; 65296; 66720; 68912; 69734;
   69872; 69942; 70096; 70384; 70736; 70864; 71248; 71360; 71472;
   71904; 72016; 72784; 73040; 73120; 92768; 92864; 93008; 120782;
   120792; 120802; 120812; 120822; 123200; 123632; 125264; 130032].

Definition digit_of_value (v : Z) : option (uint -> uint) :=
  if v =? 0 then Some D0 else if v =? 1 then Some D1
  else if v =? 2 then Some D2 else if v =? 3 then Some D3
  else if v =? 4 then Some D4 else if v =? 5 then Some D5
  else if v =? 6 then Some D6 else if v =? 7 then Some D7
  else if v =? 8 then Some D8 else if v =? 9 then Some D9
  else None.

(** The decimal digit a character stands for: an ASCII digit, or a
    decimal digit of another script. *)
Definition digit (c : Z) : option (uint -> uint) :=
  if c =? 48 then Some D0 else if c =? 49 then Some D1
  else if c =? 50 then Some D2 else if c =? 51 then Some D3
  else if c =? 52 then Some D4 else if c =? 53 then Some D5
  else if c =? 54 then Some D6 else if c =? 55 then Some D7
  else if c =? 56 then Some D8 else if c =? 57 then Some D9
  else match find (fun z => (z <=? c) && (c <=? z + 9)) digit_zeros with
       | Some z => digit_of_value (c - z)
       | None => None
       end.

(** The digit part of an integer literal: decimal digits, with single
    underscores allowed between two digits.  [after_digit] tells
    whether the previous character was a digit. *)
Fixpoint parse_digits (after_digit : bool) (s : pystr) : option uint :=
  match s with
  | [] => if after_digit then Some Nil else None
  | c :: r =>
      if c =? 95
      then if after_digit then parse_digits false r else None
      else match digit c with
           | Some d =>
               match parse_digits true r with
               | Some u => Some (d u)
               | None => None
               end
           | None => None
           end
  end.

(** [int(s)] on a token of [split()]: an optional sign and a digit
    part, ValueError otherwise.  The tokens of [split()] hold no
    whitespace, so the stripping that [int] does first is the identity
    on them.  As in the Python the program was written for, the
    number of digits has no limit (Python 3.11 refuses more than 4300
    of them unless the limit is lifted). *)
Definition int (s : pystr) : res Z :=
  match s with
  | [] => Raise ValueError
  | c :: r =>
      if c =? 45 then
        match parse_digits false r with
        | Some u => Ok (Z.of_int (Decimal.Neg u))
        | None => Raise ValueError
        end
      else if c =? 43 then
        match parse_digits false r with
        | Some u => Ok (Z.of_int (Decimal.Pos u))
        | None => Raise ValueError
        end
      else
        match parse_digits false s with
        | Some u => Ok (Z.of_int (Decimal.Pos u))
        | None => Raise ValueError
        end
  end.

(** The random source: a stream of entropy and the position of the
    next draw. *)
Record rng := mkRng { draws : nat -> Z; pos : nat }.

(** [random.randint(a, b)] for [a <= b]: an integer of [[a, b]].
    Every value of the range is the result for some entropy value. *)
Definition randint (a b : Z) (g : rng) : Z * rng :=
  (a + (draws g (pos g)) mod (b - a + 1), mkRng (draws g) (S (pos g))).

End Py.

Import Py.

Notation "' p <- m ;; k" := (bind m (fun p => k))
  (at level 61, p pattern, m at next level, right associativity).
Notation "x <- m ;; k" := (bind m (fun x => k))
  (at level 61, m at next level, right associativity).

(* ================================================================= *)
(** ** ndv_cypher.py *)

Module VernamEncrypt.

(** The test of the [if] in [_gen_char]:
    [32 <= ord(new_value) < 127 and ord(new_value) != 92]. *)
Definition valid_char (new_value : pystr) : bool :=
  match new_value with
  | [c] => (32 <=? ord c) && (ord c <? 127) && negb (ord c =? 92)
  | _ => false
  end.

(** [_gen_char(val)]: the [while not valid] loop, one draw per
    iteration; [fuel] bounds the number of iterations. *)
Fixpoint _gen_char (fuel : nat) (val : Z) (g : rng) : res (pystr * Z * rng) :=
  match fuel with
  | O => Timeout
  | S fuel' =>
      let '(shift, g') := randint (0 - val) (127 - val) g in
      new_value <- chr (val + shift) ;;
      if valid_char new_value
      then Ok (new_value, shift, g')
      else _gen_char fuel' val g'
  end.

(** The second loop of [encrypt], over [plain_ascii]. *)
Fixpoint encrypt_loop (fuel : nat) (plain_ascii : list Z)
         (key encrypt_list : list pystr) (g : rng)
  : res (list pystr * list pystr * rng) :=
  match plain_ascii with
  | [] => Ok (key, encrypt_list, g)
  | val :: rest =>
      '(new_value, shift, g') <- _gen_char fuel val g ;;
      let shift := str_of_int shift in
      encrypt_loop fuel rest (key ++ [shift]) (encrypt_list ++ [new_value]) g'
  end.

(** [encrypt(text)]: ciphertext and key text. *)
Definition encrypt (fuel : nat) (text : pystr) (g : rng)
  : res (pystr * pystr * rng) :=
  let plain_ascii := map ord text in
  '(key, encrypt_list, g') <- encrypt_loop fuel plain_ascii [] [] g ;;
  let encr_text := join [] encrypt_list in
  let encr_key := join (lit " ") key in
  Ok (encr_text, encr_key, g').

End VernamEncrypt.

Module VernamDecrypt.

(** [_user_input(cipher)]. *)
Definition _user_input (cipher : pystr) : list Z := map ord cipher.

(** The loop [for x in range(0, len(key))] of [decrypt], from index
    [x] on, for [n] more iterations. *)
Fixpoint decrypt_loop (cipher_list : list Z) (key : list pystr)
         (x n : nat) (plain_list : list pystr) : res (list pystr) :=
  match n with
  | O => Ok plain_list
  | S n' =>
      c <- index cipher_list x ;;
      k <- index key x ;;
      k <- int k ;;
      new_val <- chr (c - k) ;;
      decrypt_loop cipher_list key (S x) n' (plain_list ++ [new_val])
  end.

(** [decrypt(cipher, keytext)]. *)
Definition decrypt (cipher : pystr) (keytext : pyval) : res pystr :=
  let cipher_list := _user_input cipher in
  let key := split (str keytext) in
  plain_list <- decrypt_loop cipher_list key 0 (List.length key) [] ;;
  Ok (join [] plain_list).

End VernamDecrypt.

(* ================================================================= *)
(** ** dbmanager.py *)

Module DBManager.

(** The two tables of [data/data.db] that hold the records: the rows
    of [passw_table] and of [key_table] in scan order, each row
    [(personID, c1, c2, c3)], and the last [personID] the
    AUTOINCREMENT sequence gave out for each table. *)
Record db := mkDb {
  passw_table : list tuple;
  passw_seq : Z;
  key_table : list tuple;
  key_seq : Z
}.

Section Store.

(** What a cell reads back as, given the value written to it.
    [create_databases] declares the columns [STR], to which SQLite
    gives NUMERIC affinity: a text that is a well-formed number is
    stored as that number ("012" reads back as the integer 12), any
    other text as it is. *)
Variable stored : pyval -> pyval.

(** [write_to_main(sitetext, untext, pwtext)]. *)
Definition write_to_main (sitetext untext pwtext : pyval) (d : db) : db :=
  let personID := passw_seq d + 1 in
  mkDb (passw_table d
        ++ [[PInt personID; stored sitetext; stored untext; stored pwtext]])
       personID (key_table d) (key_seq d).

(** [write_to_keys(sitetext, untext, pwtext)]. *)
Definition write_to_keys (sitetext untext pwtext : pyval) (d : db) : db :=
  let personID := key_seq d + 1 in
  mkDb (passw_table d) (passw_seq d)
       (key_table d
        ++ [[PInt personID; stored sitetext; stored untext; stored pwtext]])
       personID.

End Store.

(** [clear_db(table)]: empties the table and its sequence; the log
    table is not part of [db]. *)
Definition clear_db (table : string) (d : db) : db :=
  if String.eqb table "passw_table" then
    mkDb [] 0 (key_table d) (key_seq d)
  else if String.eqb table "key_table" then
    mkDb (passw_table d) (passw_seq d) [] 0
  else d.

(** [append_to_list(box, param)], on the rows [param.fetchall()]
    returns. *)
Fixpoint append_to_list (box : list tuple) (items : list tuple) : list tuple :=
  match items with
  | [] => box
  | item :: rest =>
      if existsb (tuple_eqb item) box
      then append_to_list box rest
      else append_to_list (box ++ [item]) rest
  end.

(** [read_all_from_db()].  Both SELECTs run on the one cursor
    [self.cur], so [all_keys] is that cursor and never [None]; the
    first [append_to_list(keybox, all_keys)] fetches every key row and
    the second finds the cursor exhausted. *)
Definition read_all_from_db (d : db) : list tuple * list tuple :=
  let databox := append_to_list [] (passw_table d) in
  let keybox := append_to_list [] (key_table d) in
  let keybox := append_to_list keybox [] in
  (databox, keybox).

Definition is_empty {A} (l : list A) : bool :=
  match l with [] => true | _ => false end.

(** [check_db()]: [(go_ahead, databox, keybox)]. *)
Definition check_db (d : db) : Z * list tuple * list tuple :=
  let '(databox, keybox) := read_all_from_db d in
  let go_ahead :=
    if is_empty databox && negb (is_empty keybox) then 0
    else if negb (is_empty databox) && negb (is_empty keybox) then 1
    else 2 in
  (go_ahead, databox, keybox).

(** [count_records()]. *)
Definition count_records (d : db) : Z :=
  fold_left (fun num_of_records _ => num_of_records + 1) (passw_table d) 0.

End DBManager.

(* ================================================================= *)
(** ** recordmanager.py *)

Module RecordManager.

Import DBManager.

Definition INFO_BOX_TITLE : string := "Information".
Definition ERROR_BOX_TITLE : string := "Error".

(** The message boxes a call opens, in order. *)
Inductive dialog :=
| showerror (title : string)
| showinfo (title message : string)
| askquestion (title message : string).

(** [record_dict]: a [dict] from record id to record, in insertion
    order. *)
Definition dict := list (Z * tuple).

Fixpoint dict_get (d : dict) (k : Z) : res tuple :=
  match d with
  | [] => Raise KeyError
  | (k', v) :: r => if k' =? k then Ok v else dict_get r k
  end.

Definition dict_mem (d : dict) (k : Z) : bool :=
  existsb (fun kv => fst kv =? k) d.

(** [d[k] = v]: replaces in place, or appends a new entry. *)
Fixpoint dict_set (d : dict) (k : Z) (v : tuple) : dict :=
  match d with
  | [] => [(k, v)]
  | (k', v') :: r => if k' =? k then (k, v) :: r else (k', v') :: dict_set r k v
  end.

(** [del d[k]]. *)
Definition dict_del (d : dict) (k : Z) : res dict :=
  if dict_mem d k
  then Ok (filter (fun kv => negb (fst kv =? k)) d)
  else Raise KeyError.

Definition dict_keys (d : dict) : list Z := map fst d.

(** The loop [for x in record] of [record_encryption]. *)
Fixpoint encrypt_fields (fuel : nat) (record : tuple)
         (encr_list key_list : list pystr) (g : rng)
  : res (list pystr * list pystr * rng) :=
  match record with
  | [] => Ok (encr_list, key_list, g)
  | x :: rest =>
      '(encr_record, key, g') <- VernamEncrypt.encrypt fuel (str x) g ;;
      encrypt_fields fuel rest (encr_list ++ [encr_record]) (key_list ++ [key]) g'
  end.

(** The loop [for record_id in record_dict] of [record_encryption]. *)
Fixpoint encrypt_records (fuel : nat) (record_dict : dict) (ids : list Z)
         (records keys : list tuple) (g : rng)
  : res (list tuple * list tuple * rng) :=
  match ids with
  | [] => Ok (records, keys, g)
  | record_id :: rest =>
      record <- dict_get record_dict record_id ;;
      '(encr_list, key_list, g') <- encrypt_fields fuel record [] [] g ;;
      e0 <- index encr_list 0 ;;
      e1 <- index encr_list 1 ;;
      e2 <- index encr_list 2 ;;
      k0 <- index key_list 0 ;;
      k1 <- index key_list 1 ;;
      k2 <- index key_list 2 ;;
      let encr_tuple := [PStr e0; PStr e1; PStr e2] in
      let key_tuple := [PStr k0; PStr k1; PStr k2] in
      encrypt_records fuel record_dict rest
                      (records ++ [encr_tuple]) (keys ++ [key_tuple]) g'
  end.

(** [record_encryption(record_dict)]: [(records, keys)]. *)
Definition record_encryption (fuel : nat) (record_dict : dict) (g : rng)
  : res (list tuple * list tuple * rng) :=
  if negb (is_empty record_dict)
  then encrypt_records fuel record_dict (dict_keys record_dict) [] [] g
  else Ok ([], [], g).

(** [clear_records(table, win, record_dict, clear_dict)] on its branch
    [not win], the one [write_encrypted] takes. *)
Definition clear_records (table : string) (record_dict : dict)
           (clear_dict : bool) (d : db) : dict * db :=
  if String.eqb table "both" then
    let d := clear_db "key_table" d in
    let d := clear_db "passw_table" d in
    (if clear_dict then [] else record_dict, d)
  else
    ([], clear_db table d).

Section Saving.

(** What a cell of a column declared [STR] reads back as (see
    [DBManager.write_to_main]). *)
Variable stored : pyval -> pyval.

(** The loop [for x in range(len(encr_records))] of
    [write_encrypted]. *)
Fixpoint write_rows (encr_records keys : list tuple) (x n : nat) (d : db)
  : res db :=
  match n with
  | O => Ok d
  | S n' =>
      r <- index encr_records x ;;
      sitetext <- index r 0 ;;
      untext <- index r 1 ;;
      pwtext <- index r 2 ;;
      let d := write_to_main stored sitetext untext pwtext d in
      k <- index keys x ;;
      sitekey <- index k 0 ;;
      unkey <- index k 1 ;;
      pwkey <- index k 2 ;;
      let d := write_to_keys stored sitekey unkey pwkey d in
      write_rows encr_records keys (S x) n' d
  end.

(** [write_encrypted(record_dict, preserve)]. *)
Definition write_encrypted (fuel : nat) (record_dict : dict) (preserve : bool)
           (d : db) (g : rng) : res (dict * db * rng) :=
  '(encr_records, keys, g') <- record_encryption fuel record_dict g ;;
  let '(record_dict, d) := clear_records "both" record_dict (negb preserve) d in
  d <- write_rows encr_records keys 0 (List.length encr_records) d ;;
  Ok (record_dict, d, g').

End Saving.

(** The loop [for x in range(1, 4)] of [db_decryption]. *)
Fixpoint decrypt_fields (data_record key_record : tuple) (x n : nat)
         (decr_list : list pystr) : res (list pystr) :=
  match n with
  | O => Ok decr_list
  | S n' =>
      c <- index data_record x ;;
      k <- index key_record x ;;
      decrypted <- VernamDecrypt.decrypt (str c) k ;;
      decrypt_fields data_record key_record (S x) n' (decr_list ++ [decrypted])
  end.

(** The loop [for i in range(len(databox))] of [db_decryption]. *)
Fixpoint decrypt_rows (databox keybox : list tuple) (i n : nat)
         (records : list tuple) : res (list tuple) :=
  match n with
  | O => Ok records
  | S n' =>
      data_record <- index databox i ;;
      key_record <- index keybox i ;;
      decr_list <- decrypt_fields data_record key_record 1 3 [] ;;
      d0 <- index decr_list 0 ;;
      d1 <- index decr_list 1 ;;
      d2 <- index decr_list 2 ;;
      let decr_tuple := [PStr d0; PStr d1; PStr d2] in
      decrypt_rows databox keybox (S i) n' (records ++ [decr_tuple])
  end.

(** [db_decryption()]: the records returned, the store afterwards and
    the message boxes opened.  [yes] tells whether the user answers
    "yes" to [askquestion]. *)
Definition db_decryption (yes : bool) (d : db)
  : res (list tuple * db * list dialog) :=
  let records := [] in
  let '(go_ahead, databox, keybox) := check_db d in
  if go_ahead =? 1 then
    if (List.length databox =? List.length keybox)%nat then
      records <- decrypt_rows databox keybox 0 (List.length databox) records ;;
      Ok (records, d, [])
    else if (List.length keybox <? List.length databox)%nat then
      Ok (records, d, [showerror "Error: More data than keys"])
    else if (List.length databox <? List.length keybox)%nat then
      Ok (records, d, [showerror "Error: More keys than data"])
    else Ok (records, d, [])
  else if go_ahead =? 0 then
    let ask := askquestion ERROR_BOX_TITLE
      "Error: passw_table is empty, but key_table contains records. Clear 'key_table'?" in
    if yes then
      let d := clear_db "key_table" d in
      Ok (records, d, [ask; showinfo INFO_BOX_TITLE "'key_table' cleared."])
    else
      Ok (records, d,
          [ask; showinfo INFO_BOX_TITLE
                  "'key_table' not cleared. Program may not function correctly."])
  else
    let records := databox in
    Ok (records, d, []).

(** [enumerate(records, start)]. *)
Fixpoint enumerate (records : list tuple) (start : Z) : list (Z * tuple) :=
  match records with
  | [] => []
  | r :: rest => (start, r) :: enumerate rest (start + 1)
  end.

(** [dict(pairs)]. *)
Definition dict_of (pairs : list (Z * tuple)) : dict :=
  fold_left (fun d kv => dict_set d (fst kv) (snd kv)) pairs [].

(** [create_dict()]. *)
Definition create_dict (yes : bool) (d : db) : res (dict * db * list dialog) :=
  '(records, d, boxes) <- db_decryption yes d ;;
  let record_dict := dict_of (enumerate records 1) in
  Ok (record_dict, d, boxes).

(** [add_new_record(site_entry, un_entry, pw_entry, new, record_dict)]:
    the texts of the three entries and the answer to "Are you sure?"
    are inputs; the record set afterwards and the message boxes. *)
Definition add_new_record (yes : bool) (sitetext untext pwtext : pystr)
           (record_dict : dict) : dict * list dialog :=
  let ask := askquestion "Add record" "Are you sure?" in
  if yes then
    let new_index := Z.of_nat (List.length record_dict) + 1 in
    let record := [PStr sitetext; PStr untext; PStr pwtext] in
    let record_dict := dict_set record_dict new_index record in
    (record_dict, [ask; showinfo INFO_BOX_TITLE "Record saved."])
  else
    (record_dict, [ask; showinfo INFO_BOX_TITLE "Record not saved."]).

(** [change_record(..., record_dict, index)]. *)
Definition change_record (yes : bool) (newsite newun newpw : pystr)
           (record_dict : dict) (index : Z) : dict * list dialog :=
  let ask := askquestion "Change Record" "Change record?" in
  if yes then
    let record_dict := dict_set record_dict index [PStr newsite; PStr newun; PStr newpw] in
    (record_dict, [ask; showinfo INFO_BOX_TITLE "Record saved."])
  else
    (record_dict, [ask; showinfo INFO_BOX_TITLE "Record preserved."]).

(** [delete_record(edit, record_dict, index)]. *)
Definition delete_record (yes : bool) (record_dict : dict) (index : Z)
  : res (dict * list dialog) :=
  let ask := askquestion "Delete Record" "Delete record?" in
  if yes then
    record_dict <- dict_del record_dict index ;;
    Ok (record_dict, [ask; showinfo INFO_BOX_TITLE "Record deleted."])
  else
    Ok (record_dict, [ask; showinfo INFO_BOX_TITLE "Record preserved."]).

(** [clear_records(table, win, record_dict, clear_dict, everything)]
    with all its branches: [complete], the record set and the store
    afterwards, and the message boxes.  [win] is [None] for [False];
    [yes] tells whether the user answers "yes" to [askquestion]. *)
Definition clear_records_from (table : string) (win : option string)
           (record_dict : dict) (clear_dict everything yes : bool) (d : db)
  : bool * dict * db * list dialog :=
  let complete := false in
  let falsy := match win with None => true | Some w => String.eqb w "" end in
  let win := match win with None => ""%string | Some w => w end in
  if falsy then
    let '(record_dict, d) := clear_records table record_dict clear_dict d in
    (complete, record_dict, d, [])
  else if String.eqb win "dev" then
    if String.eqb table "passw_table" then
      let ask := askquestion "Warning" "Clear 'passw_table'?" in
      if yes then
        (complete, [], clear_db table d,
         [ask; showinfo INFO_BOX_TITLE
                 "'passw_table' cleared. It is highly recommended to clear 'key_table' as well."])
      else (complete, record_dict, d,
            [ask; showinfo INFO_BOX_TITLE "'passw_table' not cleared."])
    else if String.eqb table "key_table" then
      let ask := askquestion "Warning" "Clear 'key_table'?" in
      if yes then
        (complete, record_dict, clear_db table d,
         [ask; showinfo INFO_BOX_TITLE "'key_table' cleared."])
      else (complete, record_dict, d,
            [ask; showinfo INFO_BOX_TITLE "'key_table' not cleared."])
    else if String.eqb table "log_table" then
      let ask := askquestion "Warning" "Clear 'log_table'?" in
      if yes then
        (complete, record_dict, clear_db table d,
         [ask; showinfo INFO_BOX_TITLE "'log_table' cleared."])
      else (complete, record_dict, d,
            [ask; showinfo INFO_BOX_TITLE "'log_table' not cleared."])
    else (complete, record_dict, d, [])
  else if String.eqb win "main" then
    let ask := askquestion "Warning" "Are you sure? These changes are irreversible." in
    if yes then
      let d := clear_db "key_table" d in
      let d := clear_db "passw_table" d in
      (true, [], d,
       [ask; if negb everything
             then showinfo INFO_BOX_TITLE "All records cleared."
             else showinfo INFO_BOX_TITLE "All app data cleared."])
    else
      (complete, record_dict, d,
       [ask; if negb everything
             then showinfo INFO_BOX_TITLE "Records not cleared."
             else showinfo INFO_BOX_TITLE "App data preserved."])
  else (complete, record_dict, d, []).

(** The exceptions [search_dict] can raise. *)
Inductive search_exn := Index_error | Attribute_error.

(** [needle in hay] on strings. *)
Fixpoint starts_with (needle hay : pystr) : bool :=
  match needle, hay with
  | [], _ => true
  | _ :: _, [] => false
  | a :: needle', b :: hay' => (a =? b) && starts_with needle' hay'
  end.

Fixpoint contains (needle hay : pystr) : bool :=
  starts_with needle hay ||
  match hay with
  | [] => false
  | _ :: hay' => contains needle hay'
  end.

Section Searching.

(** [str.lower]. *)
Variable lower : pystr -> pystr.

(** [any(search_text.lower() in x.lower()
         for x in map(record.__getitem__, fields))]. *)
Fixpoint any_field (search_text : pystr) (record : tuple) (fields : list nat)
  : search_exn + bool :=
  match fields with
  | [] => inr false
  | f :: rest =>
      match nth_error record f with
      | None => inl Index_error
      | Some (PInt _) => inl Attribute_error
      | Some (PStr x) =>
          if contains (lower search_text) (lower x) then inr true
          else any_field search_text record rest
      end
  end.

(** The loop [for record in record_dict] of the searching branch;
    [record_dict[record]] is the value of the entry the loop is at. *)
Fixpoint search_loop (search_text : pystr) (fields : list nat)
         (entries : dict) (box : list tuple) (indices : list Z)
  : search_exn + (list tuple * list Z) :=
  match entries with
  | [] => inr (box, indices)
  | (record, value) :: rest =>
      match any_field search_text value fields with
      | inl e => inl e
      | inr true => search_loop search_text fields rest (box ++ [value]) (indices ++ [record])
      | inr false => search_loop search_text fields rest box indices
      end
  end.

(** [search_dict(record_dict, searching_text, conditions)]:
    [(box, indices, searched)].  The text of [searching_text] and the
    truth of the three [conditions] are inputs. *)
Definition search_dict (record_dict : dict) (search_text : pystr)
           (search_site search_un search_pw : bool)
  : search_exn + (list tuple * list Z * list string) :=
  let fields := [] in
  let searched := [] in
  let '(fields, searched) :=
    if search_site then (fields ++ [0%nat], searched ++ ["Site"%string])
    else (fields, searched) in
  let '(fields, searched) :=
    if search_un then (fields ++ [1%nat], searched ++ ["Username"%string])
    else (fields, searched) in
  let '(fields, searched) :=
    if search_pw then (fields ++ [2%nat], searched ++ ["Passwords"%string])
    else (fields, searched) in
  if negb (List.length searched =? 0)%nat then
    if negb (if list_eq_dec Z.eq_dec search_text [] then true else false) then
      match search_loop search_text fields record_dict [] [] with
      | inl e => inl e
      | inr (box, indices) => inr (box, indices, searched)
      end
    else
      inr (map snd record_dict, map fst record_dict, searched)
  else inr ([], [], searched).

End Searching.

Section Exporting.

(** What a cell of a column declared [STR] reads back as (see
    [DBManager.write_to_main]); the export table is declared like
    [passw_table]. *)
Variable stored : pyval -> pyval.

(** [DBManager.export_plain_db(record_dict, filename)]: the rows and
    the sequence of [passw_table] in the export file, before and
    after, and the exception that stopped the export, if any.  Each
    row is committed as it is written; [record_dict[item]] is the
    value of the entry the loop is at. *)
Fixpoint export_plain_db (record_dict : dict) (rows : list tuple) (seq : Z)
  : list tuple * Z * option exn :=
  match record_dict with
  | [] => (rows, seq, None)
  | (item, record) :: rest =>
      match record with
      | site :: username :: password :: _ =>
          export_plain_db rest
            (rows ++ [[PInt (seq + 1); stored site; stored username;
                       stored password]]) (seq + 1)
      | _ => (rows, seq, Some IndexError)
      end
  end.

End Exporting.

End RecordManager.

(* ================================================================= *)
(** ** Vocabulary of the properties *)

Import DBManager RecordManager VernamEncrypt VernamDecrypt.

(** A token: non-empty and without whitespace. *)
Definition token (t : pystr) : Prop :=
  t <> [] /\ Forall (fun c => is_space c = false) t.

(** The codepoints the loop of [_gen_char] accepts. *)
Definition printable (c : Z) : Prop := 32 <= c <= 126 /\ c <> 92.

(** The random source after one draw. *)
Definition next (g : rng) : rng := mkRng (draws g) (S (pos g)).

(** Whether the iteration that reads entropy [r] leaves the loop. *)
Definition accepted (r : Z) : bool := valid_char [r mod 128].

(** A source that eventually draws each value of the range: whatever
    the position and the character, every shift of
    [[-val, 127 - val]] is the result of a later [randint]. *)
Definition fair (dr : nat -> Z) : Prop :=
  forall (n : nat) (val shift : Z),
    0 - val <= shift <= 127 - val ->
    exists m, (n <= m)%nat /\
              fst (randint (0 - val) (127 - val) (mkRng dr m)) = shift.

(** A table row. *)
Definition row (personID : Z) (c1 c2 c3 : string) : tuple :=
  [PInt personID; PStr (lit c1); PStr (lit c2); PStr (lit c3)].

(** Stores used as examples: no rows; three cipher rows and three key
    rows; two cipher rows and three key rows; two cipher rows and no
    key row. *)
Definition store_empty : db := mkDb [] 0 [] 0.

Definition store_3_3 : db :=
  mkDb [row 1 "kab" "no" "q"; row 2 "abc" "de" "f"; row 3 "xyz" "uv" "w"] 3
       [row 1 "3 -4 -10" "2 0" "1"; row 2 "1 1 1" "2 2" "3"; row 3 "0 0 0" "1 1" "2"] 3.

Definition store_2_3 : db :=
  mkDb [row 1 "kab" "no" "q"; row 2 "abc" "de" "f"] 2
       [row 1 "3 -4 -10" "2 0" "1"; row 2 "1 1 1" "2 2" "3"; row 3 "0 0 0" "1 1" "2"] 3.

Definition store_2_0 : db :=
  mkDb [row 1 "kab" "no" "q"; row 2 "abc" "de" "f"] 2 [] 0.

(** The record set of the concrete scenario. *)
Definition scenario : dict :=
  [(1, [PStr (lit "Google"); PStr (lit "user@x.com"); PStr (lit "Secret1!")])].

(** A record of three fields. *)
Definition record (site username password : string) : tuple :=
  [PStr (lit site); PStr (lit username); PStr (lit password)].

(** The record set [create_dict] builds from three decoded records. *)
Definition three_records : dict :=
  dict_of (enumerate [record "Google" "ann" "pw1";
                      record "Mail" "bob" "pw2";
                      record "Bank" "cat" "pw3"] 1).

(** A codepoint of a Python string. *)
Definition codepoint (c : Z) : Prop := 0 <= c < 1114112.

(** A record as the entry forms make it: three strings. *)
Definition text_record (r : tuple) : Prop :=
  exists a b c, r = [PStr a; PStr b; PStr c] /\
                Forall codepoint a /\ Forall codepoint b /\ Forall codepoint c.

(** [number start rows]: the rows with the [personID]s the
    AUTOINCREMENT sequence gives them from [start] on. *)
Fixpoint number (start : Z) (rows : list tuple) : list tuple :=
  match rows with
  | [] => []
  | r :: rest => (PInt start :: r) :: number (start + 1) rest
  end.

(** The ids [1 .. n] in order. *)
Fixpoint ids_from (start : Z) (n : nat) : list Z :=
  match n with
  | O => []
  | S n' => start :: ids_from (start + 1) n'
  end.

(** The record sets a session reaches from the set [create_dict]
    built: by adding, changing at a positive id and deleting. *)
Inductive reachable : dict -> Prop :=
| reach_create (records : list tuple) :
    reachable (dict_of (enumerate records 1))
| reach_add (rd : dict) (yes : bool) (site un pw : pystr) :
    reachable rd -> reachable (fst (add_new_record yes site un pw rd))
| reach_change (rd : dict) (yes : bool) (site un pw : pystr) (index : Z) :
    reachable rd -> 0 < index ->
    reachable (fst (change_record yes site un pw rd index))
| reach_delete (rd rd' : dict) (yes : bool) (index : Z) (boxes : list dialog) :
    reachable rd -> delete_record yes rd index = Ok (rd', boxes) ->
    reachable rd'.

(** [ct] and [key] are a ciphertext and a key that [encrypt] returns
    for [text]. *)
Definition encrypts (text ct key : pystr) : Prop :=
  exists fuel g g', encrypt fuel text g = Ok (ct, key, g').

(** [row] and [krow] are the cipher tuple and the key tuple that
    [record_encryption] makes of [record]. *)
Definition encodes (record row krow : tuple) : Prop :=
  exists f0 f1 f2 rest c0 c1 c2 k0 k1 k2,
    record = f0 :: f1 :: f2 :: rest /\
    row = [PStr c0; PStr c1; PStr c2] /\
    krow = [PStr k0; PStr k1; PStr k2] /\
    encrypts (str f0) c0 k0 /\
    encrypts (str f1) c1 k1 /\
    encrypts (str f2) c2 k2.

(** A record of at least three fields whose texts are made of
    codepoints: what [record_encryption] and [db_decryption] can
    handle. *)
Definition stored_record (r : tuple) : Prop :=
  (3 <= List.length r)%nat /\ Forall (fun x => Forall codepoint (str x)) r.

(** What a save and a load make of a record: the texts of its first
    three fields. *)
Definition reloaded (r : tuple) : tuple :=
  map (fun x => PStr (str x)) (firstn 3 r).

(** A store that reads every cell back as it was written. *)
Definition keeps_text : pyval -> pyval := fun cell => cell.

(** The store [stored] reads the cells of [row] back with the texts
    that were written. *)
Definition reads_back (stored : pyval -> pyval) (row : tuple) : Prop :=
  Forall (fun cell => str (stored cell) = str cell) row.

(** A stream of entropy that gives 65 thirty-two times and counts
    from then on. *)
Definition opening (n : nat) : Z :=
  if (n <? 32)%nat then 65 else Z.of_nat n.

(** The fields [search_dict] looks at and the names it reports. *)
Definition fields_of (site un pw : bool) : list nat :=
  (if site then [0%nat] else []) ++ (if un then [1%nat] else [])
  ++ (if pw then [2%nat] else []).

Definition searched_of (site un pw : bool) : list string :=
  (if site then ["Site"%string] else [])
  ++ (if un then ["Username"%string] else [])
  ++ (if pw then ["Passwords"%string] else []).

(** Whether a text record has the searched text in a selected field. *)
Definition hit (lower : pystr -> pystr) (text : pystr) (site un pw : bool)
           (kv : Z * tuple) : bool :=
  match snd kv with
  | [PStr a; PStr b; PStr c] =>
      (site && contains (lower text) (lower a))
      || (un && contains (lower text) (lower b))
      || (pw && contains (lower text) (lower c))
  | _ => false
  end.


(* ================================================================= *)
(** ** Facts about the built-ins *)

Lemma bind_Ok {A B} (m : res A) (f : A -> res B) (b : B) :
  bind m f = Ok b -> exists a, m = Ok a /\ f a = Ok b.
Proof.
  destruct m as [a| |]; simpl; intros H; try discriminate.
  exists a; split; [reflexivity | assumption].
Qed.

Ltac bind_inv H :=
  let a := fresh "a" in
  let Ha := fresh "Ha" in
  apply bind_Ok in H; destruct H as (a & Ha & H).

Lemma index_Ok {A} (l : list A) (i : nat) (a : A) :
  index l i = Ok a <-> nth_error l i = Some a.
Proof.
  unfold index; destruct (nth_error l i); split; congruence.
Qed.

Lemma index_not_Timeout {A} (l : list A) (i : nat) : index l i <> Timeout.
Proof. unfold index; destruct (nth_error l i); discriminate. Qed.

Lemma chr_Ok (i : Z) (s : pystr) : chr i = Ok s -> s = [i] /\ 0 <= i < 1114112.
Proof.
  unfold chr.
  destruct ((-2147483648 <=? i) && (i <=? 2147483647)); [|discriminate].
  destruct (0 <=? i) eqn:E1; destruct (i <? 1114112) eqn:E2;
    simpl; intros H; inversion H; subst; split; trivial; lia.
Qed.

Lemma chr_in_range (i : Z) : 0 <= i < 1114112 -> chr i = Ok [i].
Proof.
  intros [H1 H2]; unfold chr.
  assert (E : (-2147483648 <=? i) && (i <=? 2147483647) = true)
    by (apply andb_true_iff; split; apply Z.leb_le; lia).
  rewrite E.
  apply Z.leb_le in H1; apply Z.ltb_lt in H2; rewrite H1, H2; reflexivity.
Qed.

Lemma chr_not_Timeout (i : Z) : chr i <> Timeout.
Proof.
  unfold chr.
  destruct ((-2147483648 <=? i) && (i <=? 2147483647)); [|discriminate].
  destruct ((0 <=? i) && (i <? 1114112)); discriminate.
Qed.

Lemma int_not_Timeout (s : pystr) : int s <> Timeout.
Proof.
  unfold int; destruct s as [|c r]; [discriminate|].
  destruct (c =? 45); [destruct (parse_digits false r); discriminate|].
  destruct (c =? 43); [destruct (parse_digits false r); discriminate|].
  destruct (parse_digits false (c :: r)); discriminate.
Qed.

(** *** [int(str(z)) == z] *)

Lemma parse_after_digit (u : uint) : parse_digits true (digits u) = Some u.
Proof. induction u; simpl; rewrite ?IHu; reflexivity. Qed.

Lemma parse_digits_digits (u : uint) (b : bool) :
  u <> Nil -> parse_digits b (digits u) = Some u.
Proof.
  destruct u; intros H; try congruence; simpl;
    rewrite parse_after_digit; reflexivity.
Qed.

Lemma int_digits (u : uint) :
  u <> Nil -> int (digits u) = Ok (Z.of_int (Decimal.Pos u)).
Proof.
  intros H; destruct u; try congruence;
    unfold int; cbn [digits Z.eqb Pos.eqb parse_digits digit];
    rewrite parse_after_digit; reflexivity.
Qed.

Lemma int_str_of_int (z : Z) : int (str_of_int z) = Ok z.
Proof.
  unfold str_of_int.
  pose proof (DecimalZ.of_to z) as E.
  destruct z as [|p|p]; unfold Z.to_int in *.
  - reflexivity.
  - rewrite int_digits by apply Unsigned.to_uint_nonnil. now rewrite E.
  - unfold int. cbn [Z.eqb Pos.eqb].
    rewrite parse_digits_digits by apply Unsigned.to_uint_nonnil. now rewrite E.
Qed.

(** *** [" ".join(l).split() == l] on tokens *)

Lemma digits_no_space (u : uint) : Forall (fun c => is_space c = false) (digits u).
Proof. induction u; simpl; constructor; trivial. Qed.

Lemma str_of_int_token (z : Z) : token (str_of_int z).
Proof.
  unfold str_of_int, token.
  destruct z as [|p|p]; unfold Z.to_int.
  - split; [discriminate | repeat constructor].
  - split; [|apply digits_no_space].
    pose proof (Unsigned.to_uint_nonnil p) as H.
    destruct (Pos.to_uint p); try congruence; discriminate.
  - split; [discriminate|]. constructor; [reflexivity | apply digits_no_space].
Qed.

Lemma split_from_token (t : pystr) : forall cur s,
  Forall (fun c => is_space c = false) t ->
  split_from cur (t ++ s) = split_from (List.rev t ++ cur) s.
Proof.
  induction t as [|c t IH]; intros cur s H; [reflexivity|].
  inversion H as [|? ? Hc Ht]; subst.
  simpl. rewrite Hc, IH by assumption.
  now rewrite <- app_assoc.
Qed.

Lemma rev_not_nil (t : pystr) : t <> [] -> List.rev t <> [].
Proof.
  intros H E. apply (f_equal (@List.rev Z)) in E.
  rewrite rev_involutive in E. simpl in E. congruence.
Qed.

Lemma split_from_end (cur : pystr) :
  cur <> [] -> split_from cur [] = [List.rev cur].
Proof. destruct cur; [congruence | reflexivity]. Qed.

Lemma split_from_space (cur s : pystr) :
  cur <> [] -> split_from cur (32 :: s) = List.rev cur :: split_from [] s.
Proof. destruct cur; [congruence | reflexivity]. Qed.

Lemma split_join (ts : list pystr) :
  Forall token ts -> split (join (lit " ") ts) = ts.
Proof.
  unfold split. change (lit " ") with [32].
  induction ts as [|t ts IH]; intros H; [reflexivity|].
  inversion H as [|? ? [Hne Hsp] Hts]; subst.
  destruct ts as [|t' ts'].
  - simpl. rewrite <- (app_nil_r t) at 1.
    rewrite split_from_token, app_nil_r by assumption.
    rewrite split_from_end by now apply rev_not_nil.
    now rewrite rev_involutive.
  - change (join [32] (t :: t' :: ts')) with (t ++ 32 :: join [32] (t' :: ts')).
    rewrite split_from_token, app_nil_r by assumption.
    rewrite split_from_space by now apply rev_not_nil.
    rewrite rev_involutive. f_equal. now apply IH.
Qed.

Lemma join_singletons (cs : list Z) : join [] (map (fun c => [c]) cs) = cs.
Proof.
  induction cs as [|c cs IH]; [reflexivity|].
  destruct cs as [|c' cs']; [reflexivity|].
  change (join [] (map (fun c => [c]) (c :: c' :: cs')))
    with (c :: join [] (map (fun c => [c]) (c' :: cs'))).
  now rewrite IH.
Qed.

(* ================================================================= *)
(** ** The character cipher *)

Lemma valid_char_printable (c : Z) : valid_char [c] = true <-> printable c.
Proof.
  unfold valid_char, printable, ord.
  rewrite !andb_true_iff, negb_true_iff, Z.leb_le, Z.ltb_lt, Z.eqb_neq. lia.
Qed.

Lemma map_ord (text : pystr) : map ord text = text.
Proof. apply map_id. Qed.

(** One iteration of the loop: the new character is the entropy
    modulo 128, whatever [val] is. *)
Lemma gen_char_step (fuel : nat) (val : Z) (g : rng) :
  _gen_char (S fuel) val g =
  if accepted (draws g (pos g))
  then Ok ([draws g (pos g) mod 128], draws g (pos g) mod 128 - val, next g)
  else _gen_char fuel val (next g).
Proof.
  cbn [_gen_char]. unfold randint, accepted.
  replace (127 - val - (0 - val) + 1) with 128 by lia.
  set (r := draws g (pos g)).
  replace (val + (0 - val + r mod 128)) with (r mod 128) by lia.
  pose proof (Z.mod_pos_bound r 128 ltac:(lia)) as Hr.
  rewrite chr_in_range by lia. cbn [bind].
  replace (0 - val + r mod 128) with (r mod 128 - val) by lia.
  reflexivity.
Qed.

Lemma gen_char_Ok (fuel : nat) : forall val g nv sh g',
  _gen_char fuel val g = Ok (nv, sh, g') ->
  exists c, nv = [c] /\ sh = c - val /\ printable c /\ draws g' = draws g.
Proof.
  induction fuel as [|fuel IH]; intros val g nv sh g' H; [discriminate|].
  rewrite gen_char_step in H.
  destruct (accepted (draws g (pos g))) eqn:E.
  - inversion H; subst. eexists; repeat split; try reflexivity;
      apply valid_char_printable in E; apply E.
  - apply IH in H. destruct H as (c & ? & ? & ? & Hd).
    exists c; repeat split; trivial; apply H1.
Qed.

Lemma gen_char_mono (fuel : nat) : forall val g r,
  _gen_char fuel val g = Ok r ->
  forall fuel', (fuel <= fuel')%nat -> _gen_char fuel' val g = Ok r.
Proof.
  induction fuel as [|fuel IH]; intros val g r H fuel' Hle; [discriminate|].
  destruct fuel' as [|fuel']; [lia|].
  rewrite gen_char_step in *.
  destruct (accepted (draws g (pos g))); [assumption|].
  apply IH with (fuel' := fuel') in H; [assumption | lia].
Qed.

Lemma gen_char_enough (k : nat) : forall val g fuel,
  accepted (draws g (pos g + k)) = true -> (k < fuel)%nat ->
  exists r, _gen_char fuel val g = Ok r.
Proof.
  induction k as [|k IH]; intros val g fuel Hk Hlt;
    (destruct fuel as [|fuel]; [lia|]); rewrite gen_char_step.
  - rewrite Nat.add_0_r in Hk. rewrite Hk. eauto.
  - destruct (accepted (draws g (pos g))); [eauto|].
    apply IH; [|lia]. simpl. now rewrite <- plus_n_Sm in Hk.
Qed.

Lemma fair_accepted (dr : nat -> Z) :
  fair dr -> forall n, exists m, (n <= m)%nat /\ accepted (dr m) = true.
Proof.
  intros F n. destruct (F n 0 65 ltac:(lia)) as (m & Hm & E).
  exists m; split; [assumption|].
  unfold randint in E; simpl in E. unfold accepted.
  replace (dr m mod 128) with 65 by (rewrite <- E; reflexivity). reflexivity.
Qed.

Lemma gen_char_returns (val : Z) (g : rng) :
  fair (draws g) ->
  exists fuel r, _gen_char fuel val g = Ok r.
Proof.
  intros F. destruct (fair_accepted _ F (pos g)) as (m & Hm & E).
  exists (S (m - pos g)).
  apply gen_char_enough with (k := (m - pos g)%nat); [|lia].
  now replace (pos g + (m - pos g))%nat with m by lia.
Qed.

(** *** [encrypt] *)

(** What a run of [encrypt_loop] appends: one pair (new codepoint,
    shift) per input value. *)
Lemma encrypt_loop_Ok (fuel : nat) (vals : list Z) :
  forall key el g key' el' g',
    encrypt_loop fuel vals key el g = Ok (key', el', g') ->
    exists ps : list (Z * Z),
      vals = map (fun p => fst p - snd p) ps /\
      key' = key ++ map (fun p => str_of_int (snd p)) ps /\
      el' = el ++ map (fun p => [fst p]) ps /\
      Forall (fun p => printable (fst p)) ps /\
      draws g' = draws g.
Proof.
  induction vals as [|val vals IH]; intros key el g key' el' g' H; simpl in H.
  - inversion H; subst. exists []; simpl. now rewrite !app_nil_r.
  - bind_inv H. destruct a as [[nv sh] g1].
    apply gen_char_Ok in Ha. destruct Ha as (c & -> & -> & Hc & Hd).
    apply IH in H. destruct H as (ps & -> & -> & -> & Hps & Hd').
    exists ((c, c - val) :: ps). simpl. rewrite <- !app_assoc. simpl.
    repeat split; trivial; [f_equal; lia | now constructor | congruence].
Qed.

Lemma encrypt_Ok (fuel : nat) (text : pystr) (g : rng) ct key g' :
  encrypt fuel text g = Ok (ct, key, g') ->
  exists ps : list (Z * Z),
    text = map (fun p => fst p - snd p) ps /\
    ct = map fst ps /\
    key = join (lit " ") (map (fun p => str_of_int (snd p)) ps) /\
    Forall (fun p => printable (fst p)) ps /\
    draws g' = draws g.
Proof.
  unfold encrypt. intros H. bind_inv H. destruct a as [[k el] g1].
  inversion H; subst; clear H.
  apply encrypt_loop_Ok in Ha. destruct Ha as (ps & Ht & -> & -> & Hps & Hd).
  rewrite map_ord in Ht.
  exists ps. simpl app. repeat split; trivial.
  rewrite <- (join_singletons (map fst ps)), map_map. reflexivity.
Qed.

Lemma encrypt_loop_mono (fuel : nat) (vals : list Z) :
  forall key el g r,
    encrypt_loop fuel vals key el g = Ok r ->
    forall fuel', (fuel <= fuel')%nat -> encrypt_loop fuel' vals key el g = Ok r.
Proof.
  induction vals as [|val vals IH]; intros key el g r H fuel' Hle; simpl in *;
    [assumption|].
  bind_inv H. destruct a as [[nv sh] g1].
  rewrite (gen_char_mono _ _ _ _ Ha _ Hle). simpl. eauto.
Qed.

Lemma encrypt_loop_returns (vals : list Z) :
  forall key el g, fair (draws g) ->
    exists fuel r, encrypt_loop fuel vals key el g = Ok r.
Proof.
  induction vals as [|val vals IH]; intros key el g F.
  - exists O. simpl. eauto.
  - destruct (gen_char_returns val g F) as (f1 & [[nv sh] g1] & H1).
    pose proof (gen_char_Ok _ _ _ _ _ _ H1) as (c & _ & _ & _ & Hd).
    rewrite <- Hd in F.
    destruct (IH (key ++ [str_of_int sh]) (el ++ [nv]) g1 F) as (f2 & r & H2).
    exists (Nat.max f1 f2), r. simpl.
    rewrite (gen_char_mono _ _ _ _ H1) by lia. simpl.
    apply (encrypt_loop_mono _ _ _ _ _ _ H2). lia.
Qed.

Lemma encrypt_mono (fuel : nat) (text : pystr) (g : rng) r :
  encrypt fuel text g = Ok r ->
  forall fuel', (fuel <= fuel')%nat -> encrypt fuel' text g = Ok r.
Proof.
  unfold encrypt. intros H fuel' Hle. bind_inv H.
  now rewrite (encrypt_loop_mono _ _ _ _ _ _ Ha _ Hle).
Qed.

Lemma encrypt_returns (text : pystr) (g : rng) :
  fair (draws g) ->
  exists fuel ct key g', encrypt fuel text g = Ok (ct, key, g').
Proof.
  intros F. unfold encrypt.
  destruct (encrypt_loop_returns (map ord text) [] [] g F)
    as (fuel & [[k el] g1] & H).
  exists fuel. rewrite H. simpl. eauto.
Qed.

(** *** [decrypt] *)

Lemma skipn_nth_error {A} (l : list A) : forall x a,
  nth_error l x = Some a -> skipn x l = a :: skipn (S x) l.
Proof.
  induction l as [|b l IH]; intros [|x] a H; simpl in *; try discriminate.
  - now inversion H.
  - now apply IH.
Qed.

(** Decrypting what [encrypt] produced, from position [x] on. *)
Lemma decrypt_loop_pairs (ps : list (Z * Z)) :
  Forall (fun p => 0 <= fst p - snd p < 1114112) ps ->
  forall n x acc,
    (x + n = List.length ps)%nat ->
    decrypt_loop (map fst ps) (map (fun p => str_of_int (snd p)) ps) x n acc
    = Ok (acc ++ map (fun p => [fst p - snd p]) (skipn x ps)).
Proof.
  intros Hv. induction n as [|n IH]; intros x acc Hx.
  - rewrite skipn_all2 by lia. simpl. now rewrite app_nil_r.
  - destruct (nth_error ps x) as [p|] eqn:E;
      [|apply nth_error_None in E; lia].
    cbn [decrypt_loop]. unfold index.
    rewrite (map_nth_error fst _ _ E),
            (map_nth_error (fun p => str_of_int (snd p)) _ _ E).
    cbn [bind]. rewrite int_str_of_int. cbn [bind].
    rewrite chr_in_range
      by (apply nth_error_In in E; rewrite Forall_forall in Hv; now apply Hv).
    cbn [bind]. rewrite IH by lia.
    rewrite (skipn_nth_error _ _ _ E). simpl. now rewrite <- app_assoc.
Qed.

Lemma split_key (ps : list (Z * Z)) :
  split (join (lit " ") (map (fun p => str_of_int (snd p)) ps))
  = map (fun p => str_of_int (snd p)) ps.
Proof.
  apply split_join. apply Forall_forall. intros t Ht.
  apply in_map_iff in Ht. destruct Ht as (p & <- & _). apply str_of_int_token.
Qed.

Lemma decrypt_pairs (ps : list (Z * Z)) :
  Forall (fun p => 0 <= fst p - snd p < 1114112) ps ->
  decrypt (map fst ps)
          (PStr (join (lit " ") (map (fun p => str_of_int (snd p)) ps)))
  = Ok (map (fun p => fst p - snd p) ps).
Proof.
  intros Hv. unfold decrypt, _user_input. cbn [str].
  rewrite split_key, map_ord, length_map.
  rewrite decrypt_loop_pairs by (trivial; lia).
  cbn [bind app skipn].
  rewrite <- (map_map (fun p => fst p - snd p) (fun c => [c])).
  rewrite app_nil_l. now rewrite join_singletons.
Qed.

Lemma Forall_pairs_plain (ps : list (Z * Z)) (P : Z -> Prop) :
  Forall P (map (fun p => fst p - snd p) ps) ->
  Forall (fun p => P (fst p - snd p)) ps.
Proof.
  rewrite !Forall_forall. intros H p Hp. apply H.
  apply in_map_iff. now exists p.
Qed.

(** Decrypting a ciphertext with the key [encrypt] returned with it. *)
Lemma decrypt_encrypt (fuel : nat) (text : pystr) (g : rng) ct key g' :
  Forall (fun c => 0 <= c < 1114112) text ->
  encrypt fuel text g = Ok (ct, key, g') ->
  decrypt ct (PStr key) = Ok text.
Proof.
  intros Hv H. apply encrypt_Ok in H.
  destruct H as (ps & -> & -> & -> & _ & _).
  apply decrypt_pairs. now apply Forall_pairs_plain in Hv.
Qed.

Lemma ascii_is_codepoint (s : pystr) :
  Forall (fun c => 0 <= c <= 127) s -> Forall (fun c => 0 <= c < 1114112) s.
Proof. apply Forall_impl. intros c Hc. lia. Qed.

Lemma count_fair : fair Z.of_nat.
Proof.
  intros n val shift H.
  exists (128 * n + Z.to_nat (val + shift))%nat. split; [lia|].
  unfold randint; cbn [fst draws pos].
  replace (127 - val - (0 - val) + 1) with 128 by lia.
  replace (Z.of_nat (128 * n + Z.to_nat (val + shift)))
    with ((val + shift) + Z.of_nat n * 128) by lia.
  rewrite Z_mod_plus_full, Z.mod_small by lia.
  lia.
Qed.

Lemma opening_fair : fair opening.
Proof.
  intros n val shift H.
  exists (128 * (n + 32) + Z.to_nat (val + shift))%nat. split; [lia|].
  unfold randint, opening; cbn [fst draws pos].
  destruct (Nat.ltb_spec (128 * (n + 32) + Z.to_nat (val + shift)) 32); [lia|].
  replace (127 - val - (0 - val) + 1) with 128 by lia.
  replace (Z.of_nat (128 * (n + 32) + Z.to_nat (val + shift)))
    with ((val + shift) + Z.of_nat (n + 32) * 128) by lia.
  rewrite Z_mod_plus_full, Z.mod_small by lia.
  lia.
Qed.

(* ================================================================= *)
(** ** Properties of the cipher *)

(** C1 (round trip).  For every string [s] of codepoints in
    [[0,127]] and every random source: whenever [encrypt(s)] returns a
    ciphertext and a key, [decrypt] of that ciphertext and key returns
    exactly [s]; and with a source that eventually draws each value,
    [encrypt(s)] does return. *)
Theorem round_trip (s : pystr) (g : rng) :
  Forall (fun c => 0 <= c <= 127) s ->
  (forall fuel ct key g',
      encrypt fuel s g = Ok (ct, key, g') -> decrypt ct (PStr key) = Ok s) /\
  (fair (draws g) ->
   exists fuel ct key g',
     encrypt fuel s g = Ok (ct, key, g') /\ decrypt ct (PStr key) = Ok s).
Proof.
  intros Hs. apply ascii_is_codepoint in Hs. split.
  - intros fuel ct key g' H. now apply decrypt_encrypt in H.
  - intros F. destruct (encrypt_returns s g F) as (fuel & ct & key & g' & H).
    exists fuel, ct, key, g'. split; [assumption|].
    now apply decrypt_encrypt in H.
Qed.

Lemma round_trip_witness :
  Forall (fun c => 0 <= c <= 127) (lit "sample text") /\
  fair (draws (mkRng Z.of_nat 0)) /\
  exists fuel ct key g',
    encrypt fuel (lit "sample text") (mkRng Z.of_nat 0) = Ok (ct, key, g') /\
    decrypt ct (PStr key) = Ok (lit "sample text").
Proof.
  assert (H : Forall (fun c => 0 <= c <= 127) (lit "sample text"))
    by (repeat constructor; simpl; lia).
  split; [exact H|]. split; [exact count_fair|].
  exact (proj2 (round_trip (lit "sample text") (mkRng Z.of_nat 0) H) count_fair).
Defined.

(** C2 (length alignment).  For every string [s]: whenever
    [encrypt(s)] returns, the ciphertext has the length of [s], and the
    key text splits on whitespace into exactly [length(s)] integers,
    the i-th of which is the shift that took the i-th character of [s]
    to the i-th character of the ciphertext; and with a source that
    eventually draws each value, [encrypt(s)] does return. *)
Theorem length_alignment (s : pystr) (g : rng) :
  (forall fuel ct key g',
      encrypt fuel s g = Ok (ct, key, g') ->
      List.length ct = List.length s /\
      exists shifts : list Z,
        List.length shifts = List.length s /\
        List.length (split key) = List.length s /\
        map int (split key) = map Ok shifts /\
        forall i v, nth_error s i = Some v ->
          exists k, nth_error shifts i = Some k /\
                    nth_error ct i = Some (v + k)) /\
  (fair (draws g) ->
   exists fuel ct key g', encrypt fuel s g = Ok (ct, key, g')).
Proof.
  split; [|apply encrypt_returns].
  intros fuel ct key g' H. apply encrypt_Ok in H.
  destruct H as (ps & -> & -> & -> & _ & _).
  rewrite split_key, !length_map. split; [reflexivity|].
  exists (map snd ps). rewrite !length_map, !map_map.
  repeat split.
  - apply map_ext. intros p. apply int_str_of_int.
  - intros i v Hi.
    rewrite nth_error_map in Hi.
    destruct (nth_error ps i) as [p|] eqn:E; [|discriminate].
    inversion Hi; subst. exists (snd p).
    rewrite !nth_error_map, E. simpl. split; [reflexivity | f_equal; lia].
Qed.

Lemma length_alignment_witness :
  fair (draws (mkRng Z.of_nat 0)) /\
  exists fuel ct key g',
    encrypt fuel (lit "abc") (mkRng Z.of_nat 0) = Ok (ct, key, g').
Proof.
  split; [exact count_fair|].
  exact (proj2 (length_alignment (lit "abc") (mkRng Z.of_nat 0)) count_fair).
Defined.

(** C3 (printable range).  For every string of codepoints in
    [[0,127]] and every random source: whenever [encrypt] returns,
    every character of the ciphertext has its codepoint in [[32,126]]
    and different from 92; and with a source that eventually draws
    each value, [encrypt] does return. *)
Theorem printable_range (s : pystr) (g : rng) :
  Forall (fun c => 0 <= c <= 127) s ->
  (forall fuel ct key g',
      encrypt fuel s g = Ok (ct, key, g') ->
      Forall (fun c => 32 <= c <= 126 /\ c <> 92) ct) /\
  (fair (draws g) ->
   exists fuel ct key g', encrypt fuel s g = Ok (ct, key, g')).
Proof.
  intros _. split; [|apply encrypt_returns].
  intros fuel ct key g' H. apply encrypt_Ok in H.
  destruct H as (ps & _ & -> & _ & Hp & _).
  apply Forall_forall. intros c Hc.
  apply in_map_iff in Hc. destruct Hc as (p & <- & Hin).
  rewrite Forall_forall in Hp. exact (Hp p Hin).
Qed.

Lemma printable_range_witness :
  Forall (fun c => 0 <= c <= 127) (lit "Secret1!") /\
  forall fuel ct key g',
    encrypt fuel (lit "Secret1!") (mkRng Z.of_nat 7) = Ok (ct, key, g') ->
    Forall (fun c => 32 <= c <= 126 /\ c <> 92) ct.
Proof.
  assert (H : Forall (fun c => 0 <= c <= 127) (lit "Secret1!"))
    by (repeat constructor; simpl; lia).
  split; [exact H|].
  exact (proj1 (printable_range (lit "Secret1!") (mkRng Z.of_nat 7) H)).
Defined.

(** C9 (termination of the rejection sampling).  For every codepoint
    in [[0,127]] some shift of [[-codepoint, 127 - codepoint]] passes
    the test of the loop, and with a random source that eventually
    draws each value of the range the loop of [_gen_char] ends: from
    some number of iterations on, [_gen_char] returns a character
    that passes the test together with the shift that produced it. *)
Theorem gen_char_terminates (codepoint : Z) :
  0 <= codepoint <= 127 ->
  (exists shift,
      0 - codepoint <= shift <= 127 - codepoint /\
      valid_char [codepoint + shift] = true) /\
  (forall g, fair (draws g) ->
     exists fuel0, forall fuel, (fuel0 <= fuel)%nat ->
       exists shift g',
         _gen_char fuel codepoint g = Ok ([codepoint + shift], shift, g') /\
         0 - codepoint <= shift <= 127 - codepoint /\
         valid_char [codepoint + shift] = true).
Proof.
  intros Hc. split.
  - exists (65 - codepoint). split; [lia|].
    replace (codepoint + (65 - codepoint)) with 65 by lia. reflexivity.
  - intros g F.
    destruct (gen_char_returns codepoint g F) as (fuel0 & [[nv sh] g'] & H).
    exists fuel0. intros fuel Hle.
    apply gen_char_mono with (fuel' := fuel) in H; [|assumption].
    pose proof (gen_char_Ok _ _ _ _ _ _ H) as (c & -> & -> & Hp & _).
    exists (c - codepoint), g'.
    replace (codepoint + (c - codepoint)) with c by lia.
    split; [assumption|]. split; [destruct Hp; lia|].
    now apply valid_char_printable.
Qed.

Lemma gen_char_terminates_witness :
  0 <= 0 <= 127 /\
  (exists shift, 0 - 0 <= shift <= 127 - 0 /\ valid_char [0 + shift] = true) /\
  fair (draws (mkRng Z.of_nat 0)) /\
  exists fuel0, forall fuel, (fuel0 <= fuel)%nat ->
    exists shift g',
      _gen_char fuel 0 (mkRng Z.of_nat 0) = Ok ([0 + shift], shift, g') /\
      0 - 0 <= shift <= 127 - 0 /\
      valid_char [0 + shift] = true.
Proof.
  assert (H : 0 <= 0 <= 127) by lia.
  split; [exact H|]. split; [exact (proj1 (gen_char_terminates 0 H))|].
  split; [exact count_fair|].
  exact (proj2 (gen_char_terminates 0 H) (mkRng Z.of_nat 0) count_fair).
Defined.

(* ================================================================= *)
(** ** [decrypt] against keys of another length *)

Lemma decrypt_loop_not_Timeout (cl : list Z) (key : list pystr) (n : nat) :
  forall x acc, decrypt_loop cl key x n acc <> Timeout.
Proof.
  induction n as [|n IH]; intros x acc; cbn [decrypt_loop]; [discriminate|].
  pose proof (index_not_Timeout cl x).
  destruct (index cl x) as [c| |]; cbn [bind]; try congruence.
  pose proof (index_not_Timeout key x).
  destruct (index key x) as [k| |]; cbn [bind]; try congruence.
  pose proof (int_not_Timeout k).
  destruct (int k) as [z| |]; cbn [bind]; try congruence.
  pose proof (chr_not_Timeout (c - z)).
  destruct (chr (c - z)) as [s| |]; cbn [bind]; first [apply IH | congruence].
Qed.

(** What a completed run of the loop of [decrypt] has read and
    appended. *)
Lemma decrypt_loop_Ok (cl : list Z) (key : list pystr) (n : nat) :
  forall x acc r,
    decrypt_loop cl key x n acc = Ok r ->
    (n = O \/ (x + n <= List.length cl)%nat) /\
    exists cs : list Z,
      List.length cs = n /\
      r = acc ++ map (fun c => [c]) cs /\
      forall i, (i < n)%nat ->
        exists c tok k,
          nth_error cl (x + i) = Some c /\
          nth_error key (x + i) = Some tok /\
          int tok = Ok k /\
          nth_error cs i = Some (c - k).
Proof.
  induction n as [|n IH]; intros x acc r H; cbn [decrypt_loop] in H.
  - inversion H; subst. split; [now left|].
    exists []. rewrite app_nil_r. repeat split. intros i Hi; lia.
  - bind_inv H. rename a into c. bind_inv H. rename a into tok.
    bind_inv H. rename a into k. bind_inv H.
    apply chr_Ok in Ha2. destruct Ha2 as [-> _].
    apply index_Ok in Ha, Ha0.
    apply IH in H. destruct H as (Hb & cs & Hl & -> & Hi).
    assert (x < List.length cl)%nat
      by (apply nth_error_Some; congruence).
    split; [right; destruct Hb; lia|].
    exists ((c - k) :: cs). rewrite <- app_assoc. simpl.
    repeat split; [now rewrite Hl|].
    intros [|i] Hlt.
    + rewrite Nat.add_0_r. exists c, tok, k. now repeat split.
    + destruct (Hi i ltac:(lia)) as (c' & tok' & k' & ? & ? & ? & ?).
      rewrite <- plus_n_Sm. exists c', tok', k'. now repeat split.
Qed.


(** The loop of [decrypt] through a well-formed beginning of the
    ciphertext and of the key. *)
Lemma decrypt_loop_skip (ps : list (Z * Z)) (rc : list Z) (rk : list pystr) :
  Forall (fun p => codepoint (fst p - snd p)) ps ->
  forall n x acc m,
    (x + n = List.length ps)%nat ->
    decrypt_loop (map fst ps ++ rc)
                 (map (fun p => str_of_int (snd p)) ps ++ rk) x (n + m) acc
    = decrypt_loop (map fst ps ++ rc)
                   (map (fun p => str_of_int (snd p)) ps ++ rk)
                   (List.length ps) m
                   (acc ++ map (fun p => [fst p - snd p]) (skipn x ps)).
Proof.
  intros Hv. induction n as [|n IH]; intros x acc m Hx.
  - rewrite skipn_all2 by lia. simpl. rewrite app_nil_r.
    now replace x with (List.length ps) by lia.
  - destruct (nth_error ps x) as [p|] eqn:E;
      [|apply nth_error_None in E; lia].
    cbn [Nat.add decrypt_loop]. unfold index.
    rewrite !nth_error_app1 by (rewrite length_map; lia).
    rewrite (map_nth_error fst _ _ E),
            (map_nth_error (fun p => str_of_int (snd p)) _ _ E).
    cbn [bind]. rewrite int_str_of_int. cbn [bind].
    rewrite chr_in_range
      by (apply nth_error_In in E; rewrite Forall_forall in Hv; now apply Hv).
    cbn [bind]. rewrite IH by lia.
    rewrite (skipn_nth_error _ _ _ E). simpl. now rewrite <- app_assoc.
Qed.

(** Two lists as the pairs [zip] makes of them, and what is left of
    the longer one. *)
Lemma combine_parts {A B} (l : list A) : forall l' : list B,
  exists rl rl',
    l = map fst (combine l l') ++ rl /\
    l' = map snd (combine l l') ++ rl' /\
    ((rl' = [] /\ (List.length l' <= List.length l)%nat) \/
     (rl = [] /\ rl' <> [] /\ (List.length l < List.length l')%nat)).
Proof.
  induction l as [|a l IH]; intros [|b l'].
  - exists [], []. simpl. repeat split. left. split; [reflexivity | lia].
  - exists [], (b :: l'). simpl. repeat split. right.
    repeat split; [discriminate | lia].
  - exists (a :: l), []. simpl. repeat split. left. split; [reflexivity | lia].
  - destruct (IH l') as (rl & rl' & E1 & E2 & H).
    exists rl, rl'. simpl. rewrite <- E1, <- E2. repeat split.
    destruct H as [(? & ?) | (? & ? & ?)]; [left | right]; repeat split;
      trivial; lia.
Qed.

(** C4, as the code has it.  [decrypt] makes no length check: it
    decodes position by position over the whitespace-separated shifts
    of the key.  With more shifts than ciphertext characters it always
    raises and returns nothing.  For a key of decimal integers that
    take the characters they meet to codepoints, it returns exactly
    when there are at most as many shifts as characters -- one
    character per shift, the i-th ciphertext character moved back by
    the i-th shift, so a shorter key decodes the first characters
    only -- and raises IndexError otherwise.  Whenever it returns, the
    key has at most as many shifts as the ciphertext has characters
    and the text has exactly one character per shift; nothing is ever
    padded. *)
Theorem decrypt_key_length (cipher : pystr) (keytext : pyval) :
  let tokens := split (str keytext) in
  ((List.length cipher < List.length tokens)%nat ->
   exists e, decrypt cipher keytext = Raise e) /\
  (forall shifts : list Z,
      tokens = map str_of_int shifts ->
      Forall (fun cs => codepoint (fst cs - snd cs)) (combine cipher shifts) ->
      decrypt cipher keytext
      = if (List.length shifts <=? List.length cipher)%nat
        then Ok (map (fun cs => fst cs - snd cs) (combine cipher shifts))
        else Raise IndexError) /\
  (forall text,
      decrypt cipher keytext = Ok text ->
      (List.length tokens <= List.length cipher)%nat /\
      List.length text = List.length tokens /\
      forall i, (i < List.length tokens)%nat ->
        exists c tok k,
          nth_error cipher i = Some c /\
          nth_error tokens i = Some tok /\
          int tok = Ok k /\
          nth_error text i = Some (c - k)).
Proof.
  intros tokens. unfold decrypt, _user_input. rewrite map_ord.
  fold tokens. split; [|split].
  - intros Hlt.
    destruct (decrypt_loop cipher tokens 0 (List.length tokens) []) as [r|e|] eqn:E.
    + apply decrypt_loop_Ok in E. destruct E as ([E|E] & _); simpl in E; lia.
    + exists e. reflexivity.
    + now apply decrypt_loop_not_Timeout in E.
  - intros shifts Ht Hv.
    destruct (combine_parts cipher shifts) as (rc & rk & Ec & Ek & Hcase).
    set (ps := combine cipher shifts) in *.
    assert (Et : tokens = map (fun p => str_of_int (snd p)) ps ++ map str_of_int rk).
    { rewrite Ht. rewrite Ek at 1. now rewrite map_app, map_map. }
    assert (En : List.length tokens = (List.length ps + List.length rk)%nat).
    { rewrite Et, length_app, !length_map. reflexivity. }
    rewrite En, Et.
    destruct Hcase as [(-> & Hle) | (-> & Hne & Hlt)].
    + apply Nat.leb_le in Hle. rewrite Hle. rewrite Ec at 1.
      rewrite decrypt_loop_skip by (trivial; lia).
      cbn [List.length decrypt_loop bind skipn].
      rewrite app_nil_l.
      rewrite <- (map_map (fun p : Z * Z => fst p - snd p) (fun c => [c])).
      now rewrite join_singletons.
    + apply Nat.leb_gt in Hlt. rewrite Hlt. rewrite Ec at 1.
      rewrite decrypt_loop_skip by (trivial; lia).
      destruct rk as [|b rk]; [congruence|].
      cbn [List.length decrypt_loop]. unfold index.
      rewrite app_nil_r, (proj2 (nth_error_None _ _))
        by (rewrite length_map; lia).
      reflexivity.
  - intros text H. bind_inv H. inversion H; subst; clear H.
    apply decrypt_loop_Ok in Ha. destruct Ha as (Hb & cs & Hl & -> & Hi).
    rewrite app_nil_l, join_singletons.
    split; [destruct Hb; simpl in *; lia|]. split; [assumption|].
    intros i Hlt. apply (Hi i Hlt).
Qed.

Lemma decrypt_key_length_witness :
  ((List.length (lit "ka") < List.length (split (lit "3 -4 1")))%nat /\
   exists e, decrypt (lit "ka") (PStr (lit "3 -4 1")) = Raise e) /\
  (split (lit "3 -4") = map str_of_int [3; -4] /\
   decrypt (lit "kabno") (PStr (lit "3 -4")) = Ok (lit "he")) /\
  (split (lit "3 -4 1") = map str_of_int [3; -4; 1] /\
   decrypt (lit "ka") (PStr (lit "3 -4 1")) = Raise IndexError) /\
  (decrypt (lit "kabno") (PStr (lit "3 -4")) = Ok (lit "he") /\
   List.length (lit "he") = List.length (split (lit "3 -4"))).
Proof.
  split; [|split; [|split]].
  - assert (H : (List.length (lit "ka") < List.length (split (lit "3 -4 1")))%nat)
      by (vm_compute; lia).
    split; [exact H|].
    exact (proj1 (decrypt_key_length (lit "ka") (PStr (lit "3 -4 1"))) H).
  - assert (H : split (lit "3 -4") = map str_of_int [3; -4]) by reflexivity.
    split; [exact H|].
    refine (proj1 (proj2 (decrypt_key_length (lit "kabno") (PStr (lit "3 -4"))))
                  [3; -4] H _).
    repeat constructor; unfold codepoint; simpl; lia.
  - assert (H : split (lit "3 -4 1") = map str_of_int [3; -4; 1]) by reflexivity.
    split; [exact H|].
    refine (proj1 (proj2 (decrypt_key_length (lit "ka") (PStr (lit "3 -4 1"))))
                  [3; -4; 1] H _).
    repeat constructor; unfold codepoint; simpl; lia.
  - assert (H : decrypt (lit "kabno") (PStr (lit "3 -4")) = Ok (lit "he"))
      by reflexivity.
    split; [exact H|].
    exact (proj1 (proj2 (proj2 (proj2 (decrypt_key_length (lit "kabno")
                                         (PStr (lit "3 -4"))))
                          (lit "he") H))).
Defined.

(** C4 as stated fails: the key "3 -4" has two shifts, the ciphertext
    "kabno" five characters, and [decrypt] returns the two-character
    text "he" instead of failing. *)
Lemma decrypt_truncates_to_key :
  List.length (split (lit "3 -4")) <> List.length (lit "kabno") /\
  decrypt (lit "kabno") (PStr (lit "3 -4")) = Ok (lit "he").
Proof. split; [vm_compute; lia | reflexivity]. Qed.

(* ================================================================= *)
(** ** The consistency check and the decode path *)

Lemma pyval_eqb_eq (a b : pyval) : pyval_eqb a b = true <-> a = b.
Proof.
  destruct a as [x|s], b as [y|t]; simpl; try (split; congruence).
  - rewrite Z.eqb_eq. split; congruence.
  - destruct (list_eq_dec Z.eq_dec s t); split; congruence.
Qed.

Lemma tuple_eqb_eq (a : tuple) : forall b, tuple_eqb a b = true <-> a = b.
Proof.
  induction a as [|x a IH]; intros [|y b]; simpl; try (split; congruence).
  rewrite andb_true_iff, pyval_eqb_eq, IH. split.
  - intros [-> ->]; reflexivity.
  - intros H; inversion H; auto.
Qed.

Lemma append_to_list_extends (items : list tuple) : forall box,
  exists tail, append_to_list box items = box ++ tail.
Proof.
  induction items as [|item items IH]; intros box; simpl.
  - exists []. now rewrite app_nil_r.
  - destruct (existsb (tuple_eqb item) box); [apply IH|].
    destruct (IH (box ++ [item])) as (tail & ->).
    exists (item :: tail). now rewrite <- app_assoc.
Qed.

Lemma is_empty_append_to_list (items : list tuple) :
  is_empty (append_to_list [] items) = is_empty items.
Proof.
  destruct items as [|item items]; [reflexivity|]. simpl.
  destruct (append_to_list_extends items [item]) as (tail & ->). reflexivity.
Qed.

Lemma is_empty_nil {A} (l : list A) : is_empty l = true <-> l = [].
Proof. destruct l; simpl; split; congruence. Qed.

Lemma is_empty_cons {A} (l : list A) : is_empty l = false <-> l <> [].
Proof. destruct l; simpl; split; congruence. Qed.

(** Rows that differ pairwise are read unchanged. *)
Lemma append_to_list_NoDup (items : list tuple) : forall box,
  NoDup (box ++ items) -> append_to_list box items = box ++ items.
Proof.
  induction items as [|item items IH]; intros box H; simpl.
  - now rewrite app_nil_r.
  - assert (Hn : existsb (tuple_eqb item) box = false).
    { apply not_true_is_false. intros E.
      apply existsb_exists in E. destruct E as (b & Hb & E).
      apply tuple_eqb_eq in E. subst b.
      apply NoDup_remove_2 in H. apply H, in_or_app. now left. }
    rewrite Hn, IH; rewrite <- app_assoc; [reflexivity | exact H].
Qed.

Lemma check_db_eq (d : db) :
  check_db d =
  ((if is_empty (passw_table d) && negb (is_empty (key_table d)) then 0
    else if negb (is_empty (passw_table d)) && negb (is_empty (key_table d))
         then 1 else 2),
   append_to_list [] (passw_table d),
   append_to_list [] (key_table d)).
Proof.
  unfold check_db, read_all_from_db. cbn [append_to_list].
  now rewrite !is_empty_append_to_list.
Qed.

(** C5, as the code has it.  [check_db] tells three cases apart: no
    cipher rows but key rows give 0 (orphan keys); cipher rows and key
    rows give 1, whether or not there are as many of the one as of the
    other; no key rows give 2, with or without cipher rows.  A box is
    empty exactly when its table is. *)
Theorem check_db_states (d : db) (go_ahead : Z) (databox keybox : list tuple) :
  check_db d = (go_ahead, databox, keybox) ->
  (databox, keybox) = read_all_from_db d /\
  (databox = [] <-> passw_table d = []) /\
  (keybox = [] <-> key_table d = []) /\
  (databox = [] -> keybox <> [] -> go_ahead = 0) /\
  (databox <> [] -> keybox <> [] -> go_ahead = 1) /\
  (keybox = [] -> go_ahead = 2).
Proof.
  rewrite check_db_eq. intros H. injection H as Hg Hd Hk.
  assert (Pd : is_empty (passw_table d) = is_empty databox)
    by (rewrite <- Hd; symmetry; apply is_empty_append_to_list).
  assert (Pk : is_empty (key_table d) = is_empty keybox)
    by (rewrite <- Hk; symmetry; apply is_empty_append_to_list).
  split.
  { unfold read_all_from_db. cbn [append_to_list]. now rewrite Hd, Hk. }
  split.
  { rewrite <- (is_empty_nil databox), <- (is_empty_nil (passw_table d)), Pd.
    split; auto. }
  split.
  { rewrite <- (is_empty_nil keybox), <- (is_empty_nil (key_table d)), Pk.
    split; auto. }
  rewrite <- Hg, Pd, Pk.
  destruct databox, keybox; simpl; repeat split; intros; congruence.
Qed.

Lemma check_db_states_witness :
  check_db store_3_3 = (1, passw_table store_3_3, key_table store_3_3) /\
  (passw_table store_3_3, key_table store_3_3) = read_all_from_db store_3_3 /\
  (passw_table store_3_3 <> [] -> key_table store_3_3 <> [] -> 1 = 1).
Proof.
  assert (H : check_db store_3_3
              = (1, passw_table store_3_3, key_table store_3_3)) by reflexivity.
  split; [exact H|].
  pose proof (check_db_states store_3_3 1 _ _ H) as (H1 & _ & _ & _ & H2 & _).
  split; [exact H1 | exact H2].
Defined.

(** C5 as stated fails: with two cipher rows and three key rows
    [check_db] answers 1, the answer it gives for three rows of each;
    it has no fourth state. *)
Lemma check_db_mismatch_is_aligned :
  List.length (passw_table store_2_3) = 2%nat /\
  List.length (key_table store_2_3) = 3%nat /\
  List.length (passw_table store_3_3) = 3%nat /\
  List.length (key_table store_3_3) = 3%nat /\
  fst (fst (check_db store_2_3)) = fst (fst (check_db store_3_3)).
Proof. repeat split. Qed.

(** C6, as the code has it.  With cipher rows and key rows both
    present but not as many of the one as of the other,
    [db_decryption] decrypts nothing: it opens one error box, leaves
    the store as it is and returns the empty list of records to its
    caller, without raising. *)
Theorem mismatch_returns_no_records
        (yes : bool) (d : db) (databox keybox : list tuple) :
  read_all_from_db d = (databox, keybox) ->
  databox <> [] -> keybox <> [] ->
  List.length databox <> List.length keybox ->
  db_decryption yes d =
  Ok ([], d,
      [showerror (if (List.length keybox <? List.length databox)%nat
                  then "Error: More data than keys"
                  else "Error: More keys than data")]).
Proof.
  intros H Hd Hk Hl. unfold db_decryption. rewrite check_db_eq.
  unfold read_all_from_db in H. cbn [append_to_list] in H.
  injection H as Ed Ek. rewrite Ed, Ek.
  apply is_empty_cons in Hd, Hk.
  rewrite <- Ed, is_empty_append_to_list in Hd.
  rewrite <- Ek, is_empty_append_to_list in Hk.
  rewrite Hd, Hk. cbn [negb andb Z.eqb Pos.eqb].
  apply Nat.eqb_neq in Hl. rewrite Hl.
  destruct (List.length keybox <? List.length databox)%nat eqn:E1; [reflexivity|].
  destruct (List.length databox <? List.length keybox)%nat eqn:E2; [reflexivity|].
  apply Nat.ltb_ge in E1, E2. apply Nat.eqb_neq in Hl. lia.
Qed.

Lemma mismatch_returns_no_records_witness :
  read_all_from_db store_2_3 = (passw_table store_2_3, key_table store_2_3) /\
  passw_table store_2_3 <> [] /\ key_table store_2_3 <> [] /\
  List.length (passw_table store_2_3) <> List.length (key_table store_2_3) /\
  db_decryption true store_2_3 =
  Ok ([], store_2_3, [showerror "Error: More keys than data"]).
Proof.
  assert (H1 : read_all_from_db store_2_3
               = (passw_table store_2_3, key_table store_2_3)) by reflexivity.
  assert (H2 : passw_table store_2_3 <> []) by discriminate.
  assert (H3 : key_table store_2_3 <> []) by discriminate.
  assert (H4 : List.length (passw_table store_2_3)
               <> List.length (key_table store_2_3)) by (simpl; lia).
  repeat (split; [assumption|]).
  exact (mismatch_returns_no_records true store_2_3 _ _ H1 H2 H3 H4).
Defined.

(** C6 as stated fails: on two cipher rows and three key rows
    [db_decryption] raises nothing; its caller receives the empty list
    it also receives for the empty store. *)
Lemma mismatch_is_not_raised :
  db_decryption true store_2_3
  = Ok ([], store_2_3, [showerror "Error: More keys than data"]) /\
  (forall e, db_decryption true store_2_3 <> Raise e) /\
  db_decryption true store_empty = Ok ([], store_empty, []).
Proof. repeat split. discriminate. Qed.

(** C10.  With cipher rows and no key row, [db_decryption] returns
    the rows it read from the cipher table as the records: it decrypts
    nothing, opens no box, raises nothing and leaves the store as it
    is.  The rows read are the rows of the table (rows that differ
    pairwise, as rows with their [personID] do, are read unchanged). *)
Theorem no_keys_returns_raw_rows (yes : bool) (d : db) :
  passw_table d <> [] -> key_table d = [] ->
  db_decryption yes d = Ok (fst (read_all_from_db d), d, []) /\
  fst (read_all_from_db d) <> [] /\
  (NoDup (passw_table d) -> fst (read_all_from_db d) = passw_table d).
Proof.
  intros Hd Hk. unfold db_decryption. rewrite check_db_eq.
  unfold read_all_from_db. cbn [append_to_list fst].
  pose proof Hd as Hd'. apply is_empty_cons in Hd'.
  rewrite Hk, Hd'. cbn [is_empty negb andb Z.eqb Pos.eqb].
  split; [reflexivity|]. split.
  - apply is_empty_cons. now rewrite is_empty_append_to_list.
  - intros N. now apply append_to_list_NoDup.
Qed.

Lemma no_keys_returns_raw_rows_witness :
  passw_table store_2_0 <> [] /\ key_table store_2_0 = [] /\
  NoDup (passw_table store_2_0) /\
  db_decryption false store_2_0 = Ok (fst (read_all_from_db store_2_0), store_2_0, []) /\
  fst (read_all_from_db store_2_0) = passw_table store_2_0.
Proof.
  assert (H1 : passw_table store_2_0 <> []) by discriminate.
  assert (H2 : key_table store_2_0 = []) by reflexivity.
  assert (H3 : NoDup (passw_table store_2_0)).
  { repeat constructor; simpl; intuition discriminate. }
  repeat (split; [assumption|]).
  pose proof (no_keys_returns_raw_rows false store_2_0 H1 H2) as (A & _ & B).
  split; [exact A | exact (B H3)].
Defined.

(* ================================================================= *)
(** ** Records *)

Lemma encrypt_lengths (fuel : nat) (text : pystr) (g : rng) ct key g' :
  encrypt fuel text g = Ok (ct, key, g') ->
  List.length ct = List.length text /\
  (exists shifts : list Z,
      map int (split key) = map Ok shifts /\
      List.length shifts = List.length text) /\
  draws g' = draws g.
Proof.
  intros H. apply encrypt_Ok in H.
  destruct H as (ps & -> & -> & -> & _ & Hd).
  rewrite split_key, !length_map. repeat split; trivial.
  exists (map snd ps). rewrite !map_map, length_map. split; [|reflexivity].
  apply map_ext. intros p. apply int_str_of_int.
Qed.

Opaque encrypt decrypt.

(** [record_encryption] on the scenario: three calls of [encrypt], one
    per field, on one random source. *)
Lemma record_encryption_scenario (fuel : nat) (g : rng) :
  record_encryption fuel scenario g =
  ('(c1, k1, g1) <- encrypt fuel (lit "Google") g ;;
   '(c2, k2, g2) <- encrypt fuel (lit "user@x.com") g1 ;;
   '(c3, k3, g3) <- encrypt fuel (lit "Secret1!") g2 ;;
   Ok ([[PStr c1; PStr c2; PStr c3]], [[PStr k1; PStr k2; PStr k3]], g3)).
Proof.
  unfold record_encryption, scenario. simpl.
  repeat match goal with
         | |- context [encrypt ?f ?t ?r] =>
             destruct (encrypt f t r) as [[[? ?] ?]| |]; simpl; trivial
         end.
Qed.

(** [decrypt] reads its key through [str]. *)
Lemma decrypt_str_key (cipher : pystr) (keytext : pyval) :
  decrypt cipher keytext = decrypt cipher (PStr (str keytext)).
Proof. reflexivity. Qed.

(** Decoding a store of one cipher row and one key row. *)
Lemma db_decryption_single (yes : bool) (x1 x2 x3 y1 y2 y3 : pyval)
      (t1 t2 t3 : pystr) (d : db) :
  passw_table d = [[PInt 1; x1; x2; x3]] ->
  key_table d = [[PInt 1; y1; y2; y3]] ->
  decrypt (str x1) y1 = Ok t1 ->
  decrypt (str x2) y2 = Ok t2 ->
  decrypt (str x3) y3 = Ok t3 ->
  db_decryption yes d = Ok ([[PStr t1; PStr t2; PStr t3]], d, []).
Proof.
  intros Hp Hk D1 D2 D3. unfold db_decryption. rewrite check_db_eq, Hp, Hk.
  simpl. rewrite D1. simpl. rewrite D2. simpl. rewrite D3. reflexivity.
Qed.

Transparent encrypt decrypt.

Lemma record_encryption_scenario_returns (g : rng) :
  fair (draws g) ->
  exists fuel records keys g',
    record_encryption fuel scenario g = Ok (records, keys, g').
Proof.
  intros F.
  destruct (encrypt_returns (lit "Google") g F) as (f1 & c1 & k1 & g1 & H1).
  pose proof (encrypt_lengths _ _ _ _ _ _ H1) as (_ & _ & E1).
  rewrite <- E1 in F.
  destruct (encrypt_returns (lit "user@x.com") g1 F) as (f2 & c2 & k2 & g2 & H2).
  pose proof (encrypt_lengths _ _ _ _ _ _ H2) as (_ & _ & E2).
  rewrite <- E2 in F.
  destruct (encrypt_returns (lit "Secret1!") g2 F) as (f3 & c3 & k3 & g3 & H3).
  exists (Nat.max f1 (Nat.max f2 f3)).
  rewrite record_encryption_scenario.
  rewrite (encrypt_mono _ _ _ _ H1) by lia. cbn [bind].
  rewrite (encrypt_mono _ _ _ _ H2) by lia. cbn [bind].
  rewrite (encrypt_mono _ _ _ _ H3) by lia. cbn [bind].
  eauto.
Qed.

(** C7, with the lengths the code produces.  For the record set
    [{1: ("Google", "user@x.com", "Secret1!")}], whenever
    [record_encryption] returns it returns one cipher row whose three
    fields have lengths 6, 10 and 8 and one key row whose three key
    texts hold 6, 10 and 8 integers; [decrypt] takes each ciphertext
    with its key back to "Google", "user@x.com" and "Secret1!";
    [write_encrypted] writes that pair as row 1 of each table, and
    [db_decryption] on that store returns exactly
    [("Google", "user@x.com", "Secret1!")] whenever the store reads
    the six cells back with the texts written.  With a source that
    eventually draws each value, [record_encryption] does return. *)
Theorem concrete_scenario (stored : pyval -> pyval) (g : rng) (d : db)
        (yes : bool) :
  (forall fuel records keys g',
      record_encryption fuel scenario g = Ok (records, keys, g') ->
      exists c1 c2 c3 k1 k2 k3,
        records = [[PStr c1; PStr c2; PStr c3]] /\
        keys = [[PStr k1; PStr k2; PStr k3]] /\
        map (@List.length Z) [c1; c2; c3] = [6; 10; 8]%nat /\
        (exists s1 s2 s3 : list Z,
            map int (split k1) = map Ok s1 /\
            map int (split k2) = map Ok s2 /\
            map int (split k3) = map Ok s3 /\
            map (@List.length Z) [s1; s2; s3] = [6; 10; 8]%nat) /\
        decrypt c1 (PStr k1) = Ok (lit "Google") /\
        decrypt c2 (PStr k2) = Ok (lit "user@x.com") /\
        decrypt c3 (PStr k3) = Ok (lit "Secret1!") /\
        exists d',
          write_encrypted stored fuel scenario true d g = Ok (scenario, d', g') /\
          passw_table d'
          = [[PInt 1; stored (PStr c1); stored (PStr c2); stored (PStr c3)]] /\
          key_table d'
          = [[PInt 1; stored (PStr k1); stored (PStr k2); stored (PStr k3)]] /\
          (reads_back stored [PStr c1; PStr c2; PStr c3] ->
           reads_back stored [PStr k1; PStr k2; PStr k3] ->
           db_decryption yes d'
           = Ok ([record "Google" "user@x.com" "Secret1!"], d', []))) /\
  (fair (draws g) ->
   exists fuel records keys g',
     record_encryption fuel scenario g = Ok (records, keys, g')).
Proof.
  split; [|apply record_encryption_scenario_returns].
  intros fuel records keys g' H. pose proof H as H0.
  rewrite record_encryption_scenario in H.
  bind_inv H. destruct a as [[c1 k1] g1].
  bind_inv H. destruct a as [[c2 k2] g2].
  bind_inv H. destruct a as [[c3 k3] g3].
  inversion H; subst; clear H.
  pose proof (encrypt_lengths _ _ _ _ _ _ Ha) as (L1 & (s1 & S1 & M1) & _).
  pose proof (encrypt_lengths _ _ _ _ _ _ Ha0) as (L2 & (s2 & S2 & M2) & _).
  pose proof (encrypt_lengths _ _ _ _ _ _ Ha1) as (L3 & (s3 & S3 & M3) & _).
  apply decrypt_encrypt in Ha, Ha0, Ha1;
    try (repeat constructor; simpl; lia).
  exists c1, c2, c3, k1, k2, k3.
  split; [reflexivity|]. split; [reflexivity|].
  split; [cbn [map]; now rewrite L1, L2, L3|].
  split.
  { exists s1, s2, s3. repeat split; trivial.
    cbn [map]. now rewrite M1, M2, M3. }
  split; [exact Ha|]. split; [exact Ha0|]. split; [exact Ha1|].
  eexists. split.
  { unfold write_encrypted. rewrite H0. reflexivity. }
  split; [reflexivity|]. split; [reflexivity|].
  intros Rc Rk.
  apply Forall_cons_iff in Rc. destruct Rc as (R1 & Rc).
  apply Forall_cons_iff in Rc. destruct Rc as (R2 & Rc).
  apply Forall_cons_iff in Rc. destruct Rc as (R3 & _).
  apply Forall_cons_iff in Rk. destruct Rk as (Q1 & Rk).
  apply Forall_cons_iff in Rk. destruct Rk as (Q2 & Rk).
  apply Forall_cons_iff in Rk. destruct Rk as (Q3 & _).
  cbn [str] in R1, R2, R3, Q1, Q2, Q3.
  apply db_decryption_single
    with (x1 := stored (PStr c1)) (x2 := stored (PStr c2))
         (x3 := stored (PStr c3)) (y1 := stored (PStr k1))
         (y2 := stored (PStr k2)) (y3 := stored (PStr k3));
    try reflexivity;
    rewrite decrypt_str_key; congruence.
Qed.

Lemma concrete_scenario_witness :
  fair (draws (mkRng opening 0)) /\
  (exists fuel records keys g',
      record_encryption fuel scenario (mkRng opening 0) = Ok (records, keys, g')) /\
  record_encryption 1 scenario (mkRng opening 0)
  = Ok ([record "AAAAAA" "AAAAAAAAAA" "AAAAAAAA"],
        [record "-6 -46 -46 -38 -43 -36"
                "-52 -50 -36 -49 1 -55 19 -34 -46 -44"
                "-18 -36 -34 -49 -36 -51 16 32"],
        mkRng opening 24) /\
  exists d',
    write_encrypted keeps_text 1 scenario true store_empty (mkRng opening 0)
    = Ok (scenario, d', mkRng opening 24) /\
    db_decryption true d'
    = Ok ([record "Google" "user@x.com" "Secret1!"], d', []).
Proof.
  assert (H : record_encryption 1 scenario (mkRng opening 0)
              = Ok ([record "AAAAAA" "AAAAAAAAAA" "AAAAAAAA"],
                    [record "-6 -46 -46 -38 -43 -36"
                            "-52 -50 -36 -49 1 -55 19 -34 -46 -44"
                            "-18 -36 -34 -49 -36 -51 16 32"],
                    mkRng opening 24)) by reflexivity.
  destruct (concrete_scenario keeps_text (mkRng opening 0) store_empty true)
    as (A & B).
  split; [exact opening_fair|]. split; [exact (B opening_fair)|].
  split; [exact H|].
  destruct (A _ _ _ _ H)
    as (c1 & c2 & c3 & k1 & k2 & k3 & _ & _ & _ & _ & _ & _ & _
        & d' & W & _ & _ & D).
  exists d'. split; [exact W|].
  apply D; repeat constructor.
Defined.

(** C7 as stated fails: "user@x.com" has ten characters, and so has
    its ciphertext, not eleven. *)
Lemma scenario_username_has_ten :
  exists c1 c2 c3 keys g',
    record_encryption 40 scenario (mkRng Z.of_nat 0)
    = Ok ([[PStr c1; PStr c2; PStr c3]], keys, g') /\
    List.length c2 = 10%nat /\ List.length c2 <> 11%nat.
Proof.
  do 5 eexists. split; [vm_compute; reflexivity|].
  split; [reflexivity | discriminate].
Qed.

(** C8 fails on the code: [add_new_record] numbers the new record
    [len(record_dict) + 1].  From the records 1, 2, 3, deleting record
    2 leaves 1 and 3; the record added next gets the id 3, not
    [max + 1 = 4], and replaces the record that had it. *)
Lemma add_after_delete_overwrites :
  exists after_delete boxes,
    delete_record true three_records 2 = Ok (after_delete, boxes) /\
    dict_keys after_delete = [1; 3] /\
    dict_get after_delete 3 = Ok (record "Bank" "cat" "pw3") /\
    let after_add :=
      fst (add_new_record true (lit "Shop") (lit "dan") (lit "pw4") after_delete) in
    dict_keys after_add = [1; 3] /\
    dict_get after_add 3 = Ok (record "Shop" "dan" "pw4") /\
    dict_get after_add 4 = Raise KeyError.
Proof. do 2 eexists. repeat split. Qed.

(* ================================================================= *)
(** ** More on the cipher *)

Lemma gen_char_not_Raise (fuel : nat) : forall val g e,
  _gen_char fuel val g <> Raise e.
Proof.
  induction fuel as [|fuel IH]; intros val g e; [discriminate|].
  rewrite gen_char_step.
  destruct (accepted (draws g (pos g))); [discriminate | apply IH].
Qed.

Lemma encrypt_loop_not_Raise (fuel : nat) (vals : list Z) :
  forall key el g e, encrypt_loop fuel vals key el g <> Raise e.
Proof.
  induction vals as [|val vals IH]; intros key el g e; simpl; [discriminate|].
  pose proof (gen_char_not_Raise fuel val g) as N.
  destruct (_gen_char fuel val g) as [[[nv sh] g1]|e0|]; simpl;
    [apply IH | intros _; exact (N e0 eq_refl) | discriminate].
Qed.

(** X1.  [encrypt] never raises, whatever the codepoints of its input
    and whatever the random source: the argument of [chr] in
    [_gen_char] is always in [[0,127]]. *)
Theorem encrypt_never_raises (fuel : nat) (text : pystr) (g : rng) (e : exn) :
  encrypt fuel text g <> Raise e.
Proof.
  unfold encrypt.
  pose proof (encrypt_loop_not_Raise fuel (map ord text) [] [] g) as N.
  destruct (encrypt_loop fuel (map ord text) [] [] g) as [[[k el] g1]|e0|];
    simpl; [discriminate | intros _; exact (N e0 eq_refl) | discriminate].
Qed.

(** X2.  The round trip holds for every Python string, not only for
    ASCII ones: for codepoints up to 0x10FFFF the ciphertext is still
    made of characters of [[32,126]] other than 92, [decrypt] returns
    the text, and with a source that eventually draws each value
    [encrypt] returns. *)
Theorem round_trip_any_codepoint (s : pystr) (g : rng) :
  Forall codepoint s ->
  (forall fuel ct key g',
      encrypt fuel s g = Ok (ct, key, g') ->
      Forall printable ct /\ decrypt ct (PStr key) = Ok s) /\
  (fair (draws g) ->
   exists fuel ct key g', encrypt fuel s g = Ok (ct, key, g')).
Proof.
  intros Hs. split; [|apply encrypt_returns].
  intros fuel ct key g' H. split; [|now apply decrypt_encrypt in H].
  apply encrypt_Ok in H. destruct H as (ps & _ & -> & _ & Hp & _).
  apply Forall_forall. intros c Hc.
  apply in_map_iff in Hc. destruct Hc as (p & <- & Hin).
  rewrite Forall_forall in Hp. exact (Hp p Hin).
Qed.

Lemma round_trip_any_codepoint_witness :
  Forall codepoint [233; 8364; 128512] /\
  fair (draws (mkRng Z.of_nat 0)) /\
  exists fuel ct key g',
    encrypt fuel [233; 8364; 128512] (mkRng Z.of_nat 0) = Ok (ct, key, g').
Proof.
  assert (H : Forall codepoint [233; 8364; 128512])
    by (repeat constructor; unfold codepoint; lia).
  split; [exact H|]. split; [exact count_fair|].
  exact (proj2 (round_trip_any_codepoint _ (mkRng Z.of_nat 0) H) count_fair).
Defined.

(** The loop of [encrypt] on a source whose draws from position [p]
    on are the codepoints [cs]. *)
Lemma encrypt_loop_chosen (dr : nat -> Z) (fuel : nat) (vals : list Z) :
  forall (cs : list Z) (p : nat) key el,
    List.length cs = List.length vals ->
    Forall printable cs ->
    (forall i c, nth_error cs i = Some c -> dr (p + i)%nat = c) ->
    encrypt_loop (S fuel) vals key el (mkRng dr p)
    = Ok (key ++ map (fun cv => str_of_int (fst cv - snd cv)) (combine cs vals),
          el ++ map (fun c => [c]) cs,
          mkRng dr (p + List.length cs)).
Proof.
  induction vals as [|val vals IH]; intros [|c cs] p key el Hl Hp Hd;
    try discriminate.
  - simpl. now rewrite !app_nil_r, Nat.add_0_r.
  - cbn [encrypt_loop]. rewrite gen_char_step. cbn [draws pos].
    pose proof (Hd O c eq_refl) as H0. rewrite Nat.add_0_r in H0. rewrite H0.
    apply Forall_cons_iff in Hp. destruct Hp as [Hc Hcs].
    assert (Em : c mod 128 = c) by (apply Z.mod_small; destruct Hc; lia).
    unfold accepted. rewrite Em.
    apply valid_char_printable in Hc. rewrite Hc. cbn [bind].
    unfold next. cbn [draws pos].
    rewrite IH with (cs := cs); trivial.
    + simpl. rewrite <- !app_assoc. simpl.
      now rewrite <- plus_n_Sm.
    + now injection Hl.
    + intros i c' Hi. rewrite <- (Hd (S i) c' Hi). f_equal. lia.
Qed.

(** X3.  The ciphertext alone tells nothing but the length: for every
    text and every string of the same length made of characters of
    [[32,126]] other than 92, some outcome of the draws makes
    [encrypt] return exactly that string as the ciphertext. *)
Theorem every_ciphertext_possible (s ct : pystr) :
  List.length ct = List.length s ->
  Forall printable ct ->
  exists g : rng, forall fuel, (0 < fuel)%nat ->
    exists key g', encrypt fuel s g = Ok (ct, key, g').
Proof.
  intros Hl Hp. exists (mkRng (fun n => nth n ct 0) 0).
  intros [|fuel] Hf; [lia|]. unfold encrypt. rewrite map_ord.
  rewrite encrypt_loop_chosen with (cs := ct); trivial.
  - cbn [bind]. rewrite !app_nil_l, join_singletons. eauto.
  - intros i c Hi. simpl. now apply nth_error_nth.
Qed.

Lemma every_ciphertext_possible_witness :
  List.length (lit "AAAAAA") = List.length (lit "Google") /\
  Forall printable (lit "AAAAAA") /\
  exists g : rng, forall fuel, (0 < fuel)%nat ->
    exists key g', encrypt fuel (lit "Google") g = Ok (lit "AAAAAA", key, g').
Proof.
  assert (H1 : List.length (lit "AAAAAA") = List.length (lit "Google"))
    by reflexivity.
  assert (H2 : Forall printable (lit "AAAAAA"))
    by (repeat constructor; simpl; lia).
  split; [exact H1|]. split; [exact H2|].
  exact (every_ciphertext_possible (lit "Google") (lit "AAAAAA") H1 H2).
Defined.

Lemma combine_fst {A B} (l : list A) : forall l' : list B,
  List.length l = List.length l' -> map fst (combine l l') = l.
Proof.
  induction l as [|a l IH]; intros [|b l'] H; simpl in *; try discriminate;
    [reflexivity|]. f_equal. apply IH. now injection H.
Qed.

Lemma combine_snd {A B} (l : list A) : forall l' : list B,
  List.length l = List.length l' -> map snd (combine l l') = l'.
Proof.
  induction l as [|a l IH]; intros [|b l'] H; simpl in *; try discriminate;
    [reflexivity|]. f_equal. apply IH. now injection H.
Qed.

(** X4.  [decrypt] with any key of as many shifts as the ciphertext
    has characters, written as integers separated by single spaces:
    the text is the ciphertext moved back shift by shift, provided
    every result is a codepoint. *)
Theorem decrypt_with_shifts (cipher : pystr) (shifts : list Z) :
  List.length cipher = List.length shifts ->
  Forall (fun cs => codepoint (fst cs - snd cs)) (combine cipher shifts) ->
  decrypt cipher (PStr (join (lit " ") (map str_of_int shifts)))
  = Ok (map (fun cs => fst cs - snd cs) (combine cipher shifts)).
Proof.
  intros Hl Hv.
  pose proof (decrypt_pairs (combine cipher shifts) Hv) as D.
  rewrite combine_fst in D by assumption.
  rewrite <- (combine_snd cipher shifts Hl) at 1.
  now rewrite map_map.
Qed.

Lemma decrypt_with_shifts_witness :
  List.length (lit "kabno") = List.length [3; -4; -10; 2; 0] /\
  decrypt (lit "kabno") (PStr (lit "3 -4 -10 2 0")) = Ok (lit "hello").
Proof.
  assert (H : List.length (lit "kabno") = List.length [3; -4; -10; 2; 0])
    by reflexivity.
  split; [exact H|].
  refine (decrypt_with_shifts (lit "kabno") [3; -4; -10; 2; 0] H _).
  repeat constructor; simpl; lia.
Defined.



(* ================================================================= *)
(** ** More on the store *)

Lemma existsb_tuple_eqb (item : tuple) (box : list tuple) :
  existsb (tuple_eqb item) box = true <-> In item box.
Proof.
  rewrite existsb_exists. split.
  - intros (b & Hb & E). apply tuple_eqb_eq in E. now subst.
  - intros H. exists item. split; [assumption | now apply tuple_eqb_eq].
Qed.

(** X6.  [append_to_list] keeps the box it is given as the beginning
    of its result, adds exactly the fetched rows that are not in it
    yet, and never creates a duplicate. *)
Theorem append_to_list_spec (items : list tuple) : forall box : list tuple,
  (exists tail, append_to_list box items = box ++ tail) /\
  (forall r, In r (append_to_list box items) <-> In r box \/ In r items) /\
  (NoDup box -> NoDup (append_to_list box items)).
Proof.
  induction items as [|item items IH]; intros box.
  - simpl. split; [exists []; now rewrite app_nil_r|].
    split; [intros r; tauto | trivial].
  - cbn [append_to_list].
    destruct (existsb (tuple_eqb item) box) eqn:E.
    + apply existsb_tuple_eqb in E.
      destruct (IH box) as (Hp & Hi & Hn).
      split; [exact Hp|]. split; [|exact Hn].
      intros r. rewrite Hi. simpl. split; [tauto|].
      intros [H|[H|H]]; subst; tauto.
    + assert (Hnot : ~ In item box).
      { intros H. apply existsb_tuple_eqb in H. congruence. }
      destruct (IH (box ++ [item])) as ((tail & Hp) & Hi & Hn).
      split; [exists (item :: tail); rewrite Hp; now rewrite <- app_assoc|].
      split.
      * intros r. rewrite Hi, in_app_iff. simpl. tauto.
      * intros N. apply Hn. apply NoDup_app; trivial.
        -- repeat constructor. simpl. tauto.
        -- intros x Hx [Hx'|[]]. subst. tauto.
Qed.

Lemma append_to_list_spec_witness :
  NoDup [row 1 "a" "b" "c"] /\
  NoDup (append_to_list [row 1 "a" "b" "c"]
                        [row 1 "a" "b" "c"; row 2 "d" "e" "f"; row 2 "d" "e" "f"]) /\
  append_to_list [row 1 "a" "b" "c"]
                 [row 1 "a" "b" "c"; row 2 "d" "e" "f"; row 2 "d" "e" "f"]
  = [row 1 "a" "b" "c"; row 2 "d" "e" "f"].
Proof.
  assert (H : NoDup [row 1 "a" "b" "c"]) by (repeat constructor; simpl; tauto).
  split; [exact H|]. split; [|reflexivity].
  exact (proj2 (proj2 (append_to_list_spec _ _)) H).
Defined.

(* ================================================================= *)
(** ** Saving and loading a record set *)

Lemma encrypt_fields_Ok (fuel : nat) (record : tuple) :
  forall el kl g el' kl' g',
    encrypt_fields fuel record el kl g = Ok (el', kl', g') ->
    exists qs : list (pystr * pystr),
      el' = el ++ map fst qs /\
      kl' = kl ++ map snd qs /\
      draws g' = draws g /\
      Forall2 (fun x q => encrypts (str x) (fst q) (snd q)) record qs.
Proof.
  induction record as [|x record IH]; intros el kl g el' kl' g' H;
    cbn [encrypt_fields] in H.
  - inversion H; subst. exists []. simpl. rewrite !app_nil_r.
    repeat split; constructor.
  - bind_inv H. destruct a as [[ct key] g1].
    pose proof (encrypt_lengths _ _ _ _ _ _ Ha) as (_ & _ & Hd).
    apply IH in H. destruct H as (qs & -> & -> & Hd' & Hq).
    exists ((ct, key) :: qs). simpl. rewrite <- !app_assoc. simpl.
    repeat split; [congruence|]. constructor; [|assumption].
    now exists fuel, g, g1.
Qed.

Lemma index_map_fst {A B} (qs : list (A * B)) (i : nat) (a : A) :
  index (map fst qs) i = Ok a -> exists q, nth_error qs i = Some q /\ fst q = a.
Proof.
  intros H. apply index_Ok in H. rewrite nth_error_map in H.
  destruct (nth_error qs i) as [q|]; [|discriminate].
  exists q. split; [reflexivity | now inversion H].
Qed.

Lemma index_map_snd {A B} (qs : list (A * B)) (i : nat) (b : B) :
  index (map snd qs) i = Ok b -> exists q, nth_error qs i = Some q /\ snd q = b.
Proof.
  intros H. apply index_Ok in H. rewrite nth_error_map in H.
  destruct (nth_error qs i) as [q|]; [|discriminate].
  exists q. split; [reflexivity | now inversion H].
Qed.

Lemma encrypt_records_Ok (fuel : nat) (rd : dict) (ids : list Z) :
  forall recs keys g recs' keys' g',
    encrypt_records fuel rd ids recs keys g = Ok (recs', keys', g') ->
    exists pairs : list (tuple * tuple),
      recs' = recs ++ map fst pairs /\
      keys' = keys ++ map snd pairs /\
      draws g' = draws g /\
      Forall2 (fun id pr => exists record,
                   dict_get rd id = Ok record /\
                   encodes record (fst pr) (snd pr)) ids pairs.
Proof.
  induction ids as [|id ids IH]; intros recs keys g recs' keys' g' H;
    cbn [encrypt_records] in H.
  - inversion H; subst. exists []. simpl. rewrite !app_nil_r.
    repeat split; constructor.
  - bind_inv H. rename a into record. rename Ha into Hget.
    bind_inv H. destruct a as [[el kl] g1].
    apply encrypt_fields_Ok in Ha. destruct Ha as (qs & -> & -> & Hd & Hq).
    rewrite !app_nil_l in H.
    bind_inv H. apply index_map_fst in Ha. destruct Ha as (q0 & N0 & <-).
    bind_inv H. apply index_map_fst in Ha. destruct Ha as (q1 & N1 & <-).
    bind_inv H. apply index_map_fst in Ha. destruct Ha as (q2 & N2 & <-).
    bind_inv H. apply index_map_snd in Ha. destruct Ha as (q0' & N0' & <-).
    bind_inv H. apply index_map_snd in Ha. destruct Ha as (q1' & N1' & <-).
    bind_inv H. apply index_map_snd in Ha. destruct Ha as (q2' & N2' & <-).
    rewrite N0 in N0'. rewrite N1 in N1'. rewrite N2 in N2'.
    inversion N0'; inversion N1'; inversion N2'; subst q0' q1' q2'.
    apply IH in H. destruct H as (pairs & -> & -> & Hd' & Hp).
    exists (([PStr (fst q0); PStr (fst q1); PStr (fst q2)],
             [PStr (snd q0); PStr (snd q1); PStr (snd q2)]) :: pairs).
    simpl. rewrite <- !app_assoc. simpl.
    repeat split; [congruence|]. constructor; [|assumption].
    exists record. split; [assumption|].
    destruct qs as [|p0 [|p1 [|p2 qs]]]; try discriminate.
    simpl in N0, N1, N2. inversion N0; inversion N1; inversion N2; subst.
    inversion Hq as [|f0 ? r0 ? E0 Hq0]; subst.
    inversion Hq0 as [|f1 ? r1 ? E1 Hq1]; subst.
    inversion Hq1 as [|f2 ? r2 ? E2 Hq2]; subst.
    exists f0, f1, f2, r2, (fst q0), (fst q1), (fst q2),
           (snd q0), (snd q1), (snd q2).
    simpl. repeat split; assumption.
Qed.

Lemma dict_get_In (rd : dict) (k : Z) (v : tuple) :
  NoDup (dict_keys rd) -> In (k, v) rd -> dict_get rd k = Ok v.
Proof.
  unfold dict_keys. induction rd as [|[k' v'] rd IH]; intros N H; [destruct H|].
  simpl in *. inversion N as [|? ? Hn N']; subst.
  destruct H as [H|H].
  - inversion H; subst. now rewrite Z.eqb_refl.
  - destruct (k' =? k) eqn:E; [|now apply IH].
    apply Z.eqb_eq in E. subst k'. exfalso. apply Hn.
    apply in_map_iff. now exists (k, v).
Qed.

Lemma number_length (rows : list tuple) : forall s,
  List.length (number s rows) = List.length rows.
Proof. induction rows; intros s; simpl; [|rewrite IHrows]; reflexivity. Qed.

Lemma number_nth_error (rows : list tuple) : forall s i r,
  nth_error rows i = Some r ->
  nth_error (number s rows) i = Some (PInt (s + Z.of_nat i) :: r).
Proof.
  induction rows as [|r0 rows IH]; intros s [|i] r H; simpl in *; try discriminate.
  - inversion H; subst. now rewrite Z.add_0_r.
  - rewrite (IH (s + 1) i r H). do 3 f_equal. lia.
Qed.

Lemma number_In (rows : list tuple) : forall s r,
  In r (number s rows) -> exists i r', r = PInt i :: r' /\ s <= i.
Proof.
  induction rows as [|r0 rows IH]; intros s r H; simpl in H; [destruct H|].
  destruct H as [<-|H].
  - exists s, r0. split; [reflexivity | lia].
  - apply IH in H. destruct H as (i & r' & -> & Hi).
    exists i, r'. split; [reflexivity | lia].
Qed.

Lemma number_NoDup (rows : list tuple) : forall s, NoDup (number s rows).
Proof.
  induction rows as [|r0 rows IH]; intros s; simpl; constructor; [|apply IH].
  intros H. apply number_In in H. destruct H as (i & r' & E & Hi).
  inversion E. lia.
Qed.

(** The loop of [write_encrypted] on rows of three fields: each table
    gets the rows left to write, numbered from its sequence on. *)
Lemma write_rows_numbered (stored : pyval -> pyval)
      (pairs : list (tuple * tuple)) :
  Forall (fun pr : tuple * tuple => exists a b c k l m,
              fst pr = [a; b; c] /\ snd pr = [k; l; m]) pairs ->
  forall n x d,
    (x + n = List.length pairs)%nat ->
    write_rows stored (map fst pairs) (map snd pairs) x n d
    = Ok (mkDb (passw_table d
                ++ number (passw_seq d + 1)
                     (skipn x (map (map stored) (map fst pairs))))
               (passw_seq d + Z.of_nat n)
               (key_table d
                ++ number (key_seq d + 1)
                     (skipn x (map (map stored) (map snd pairs))))
               (key_seq d + Z.of_nat n)).
Proof.
  intros Hs. induction n as [|n IH]; intros x d Hx.
  - rewrite !skipn_all2 by (rewrite !length_map; lia).
    simpl. rewrite !app_nil_r, !Z.add_0_r. now destruct d.
  - destruct (nth_error pairs x) as [pr|] eqn:E;
      [|apply nth_error_None in E; lia].
    pose proof E as Hin. apply nth_error_In in Hin.
    rewrite Forall_forall in Hs.
    destruct (Hs pr Hin) as (a & b & c & k & l & m & Ef & Ek).
    cbn [write_rows]. unfold index.
    rewrite (map_nth_error fst _ _ E), (map_nth_error snd _ _ E), Ef, Ek.
    cbn [bind nth_error].
    rewrite IH by lia.
    unfold write_to_main, write_to_keys.
    cbn [passw_table passw_seq key_table key_seq].
    rewrite (skipn_nth_error _ x _
               (map_nth_error (map stored) _ _ (map_nth_error fst _ _ E))).
    rewrite (skipn_nth_error _ x _
               (map_nth_error (map stored) _ _ (map_nth_error snd _ _ E))).
    rewrite Ef, Ek. cbn [number map]. rewrite <- !app_assoc. cbn [List.app].
    do 2 f_equal; lia.
Qed.

Lemma clear_records_both (rd : dict) (clear_dict : bool) (d : db) :
  clear_records "both" rd clear_dict d
  = (if clear_dict then [] else rd, mkDb [] 0 [] 0).
Proof. reflexivity. Qed.

Lemma Forall2_length_eq {A B} (R : A -> B -> Prop) (l : list A) (l' : list B) :
  Forall2 R l l' -> List.length l = List.length l'.
Proof. induction 1; simpl; congruence. Qed.

Lemma Forall2_nth_error_r {A B} (R : A -> B -> Prop) (l : list A) (l' : list B) :
  Forall2 R l l' ->
  forall i y, nth_error l' i = Some y ->
              exists x, nth_error l i = Some x /\ R x y.
Proof.
  induction 1 as [|x y l l' Hxy H IH]; intros [|i] y' E; simpl in *;
    try discriminate.
  - inversion E; subst. eauto.
  - now apply IH.
Qed.

Lemma record_encryption_Ok (fuel : nat) (rd : dict) (g : rng) recs keys g' :
  record_encryption fuel rd g = Ok (recs, keys, g') ->
  exists pairs : list (tuple * tuple),
    recs = map fst pairs /\ keys = map snd pairs /\
    draws g' = draws g /\
    Forall2 (fun id pr => exists record,
                 dict_get rd id = Ok record /\
                 encodes record (fst pr) (snd pr)) (dict_keys rd) pairs.
Proof.
  unfold record_encryption. intros H. destruct rd as [|kv rd0].
  - simpl in H. inversion H; subst. exists []. repeat split. constructor.
  - cbn [is_empty negb] in H. apply encrypt_records_Ok in H.
    destruct H as (pairs & -> & -> & Hd & Hp). now exists pairs.
Qed.

Lemma encoded_pairs_shape (rd : dict) (ids : list Z) (pairs : list (tuple * tuple)) :
  Forall2 (fun id pr => exists record,
               dict_get rd id = Ok record /\
               encodes record (fst pr) (snd pr)) ids pairs ->
  Forall (fun pr : tuple * tuple => exists a b c k l m,
              fst pr = [a; b; c] /\ snd pr = [k; l; m]) pairs.
Proof.
  intros Hp. apply Forall_forall. intros pr Hin.
  apply In_nth_error in Hin. destruct Hin as (i & Hi).
  destruct (Forall2_nth_error_r _ _ _ Hp i pr Hi)
    as (id & _ & record & _ & E).
  destruct E as (f0 & f1 & f2 & rest & c0 & c1 & c2 & k0 & k1 & k2
                 & _ & -> & -> & _).
  now exists (PStr c0), (PStr c1), (PStr c2), (PStr k0), (PStr k1), (PStr k2).
Qed.

(** [write_encrypted] returns as soon as [record_encryption] does. *)
Lemma write_encrypted_eq (stored : pyval -> pyval) (fuel : nat) (rd : dict)
      (preserve : bool) (d : db) (g : rng) (pairs : list (tuple * tuple)) g' :
  record_encryption fuel rd g = Ok (map fst pairs, map snd pairs, g') ->
  Forall (fun pr : tuple * tuple => exists a b c k l m,
              fst pr = [a; b; c] /\ snd pr = [k; l; m]) pairs ->
  write_encrypted stored fuel rd preserve d g
  = Ok (if preserve then rd else [],
        mkDb (number 1 (map (map stored) (map fst pairs)))
             (Z.of_nat (List.length pairs))
             (number 1 (map (map stored) (map snd pairs)))
             (Z.of_nat (List.length pairs)),
        g').
Proof.
  intros H Hs. unfold write_encrypted. rewrite H. cbn [bind].
  rewrite clear_records_both, length_map.
  rewrite write_rows_numbered by (trivial; lia).
  cbn [bind passw_table passw_seq key_table key_seq List.app skipn].
  now destruct preserve.
Qed.

(** What [write_encrypted] leaves in the store. *)
Lemma write_encrypted_Ok (stored : pyval -> pyval) (fuel : nat) (rd : dict)
      (preserve : bool) (d : db) (g : rng) rd' d' g' :
  write_encrypted stored fuel rd preserve d g = Ok (rd', d', g') ->
  exists pairs : list (tuple * tuple),
    record_encryption fuel rd g = Ok (map fst pairs, map snd pairs, g') /\
    Forall2 (fun id pr => exists record,
                 dict_get rd id = Ok record /\
                 encodes record (fst pr) (snd pr)) (dict_keys rd) pairs /\
    rd' = (if preserve then rd else []) /\
    d' = mkDb (number 1 (map (map stored) (map fst pairs)))
              (Z.of_nat (List.length pairs))
              (number 1 (map (map stored) (map snd pairs)))
              (Z.of_nat (List.length pairs)).
Proof.
  intros H. pose proof H as H0. unfold write_encrypted in H0.
  bind_inv H0. destruct a as [[recs keys] g1].
  assert (g1 = g').
  { destruct (clear_records "both" rd (negb preserve) d) as [rd1 d1].
    bind_inv H0. now inversion H0. }
  subst g1.
  destruct (record_encryption_Ok _ _ _ _ _ _ Ha) as (pairs & -> & -> & _ & Hp).
  rewrite (write_encrypted_eq stored _ _ preserve d _ _ _ Ha
             (encoded_pairs_shape _ _ _ Hp)) in H.
  inversion H; subst. exists pairs. repeat split; trivial.
Qed.

Lemma count_records_length (d : db) :
  count_records d = Z.of_nat (List.length (passw_table d)).
Proof.
  unfold count_records.
  enough (G : forall (l : list tuple) a,
             fold_left (fun n _ => n + 1) l a = a + Z.of_nat (List.length l))
    by (rewrite G; lia).
  induction l as [|r l IH]; intros a; cbn [fold_left List.length];
    [|rewrite IH]; lia.
Qed.

Lemma encrypts_lengths (text ct key : pystr) :
  encrypts text ct key ->
  List.length ct = List.length text /\
  List.length (split key) = List.length text.
Proof.
  intros (fuel & g & g' & H).
  apply encrypt_lengths in H. destruct H as (L & (shifts & S & M) & _).
  split; [assumption|].
  apply (f_equal (@List.length (res Z))) in S. rewrite !length_map in S. lia.
Qed.

Lemma write_encrypted_any_store (stored : pyval -> pyval) (fuel : nat)
      (rd : dict) (preserve : bool) (d1 d2 : db) (g : rng) :
  write_encrypted stored fuel rd preserve d1 g
  = write_encrypted stored fuel rd preserve d2 g.
Proof.
  unfold write_encrypted.
  destruct (record_encryption fuel rd g) as [[[recs keys] g1]| |]; reflexivity.
Qed.

(** X7.  A save is a full replacement.  Whenever
    [write_encrypted] returns, whatever the two tables held before,
    each of them holds exactly one row per record, numbered 1, 2, ...
    in the order of the record set; the cells of a row are what the
    store makes of three ciphertexts and of their three key texts,
    each key text having as many shifts as its ciphertext has
    characters; [count_records] gives the number of records; and the
    record set handed back is the one given when [preserve] is set and
    the empty one when it is not. *)
Theorem write_encrypted_replaces_store
        (stored : pyval -> pyval)
        (fuel : nat) (rd : dict) (preserve : bool) (d : db) (g : rng)
        (rd' : dict) (d' : db) (g' : rng) :
  write_encrypted stored fuel rd preserve d g = Ok (rd', d', g') ->
  rd' = (if preserve then rd else []) /\
  List.length (passw_table d') = List.length rd /\
  List.length (key_table d') = List.length rd /\
  count_records d' = Z.of_nat (List.length rd) /\
  (forall i, (i < List.length rd)%nat ->
     exists c1 c2 c3 k1 k2 k3,
       nth_error (passw_table d') i
       = Some [PInt (1 + Z.of_nat i);
               stored (PStr c1); stored (PStr c2); stored (PStr c3)] /\
       nth_error (key_table d') i
       = Some [PInt (1 + Z.of_nat i);
               stored (PStr k1); stored (PStr k2); stored (PStr k3)] /\
       List.length (split k1) = List.length c1 /\
       List.length (split k2) = List.length c2 /\
       List.length (split k3) = List.length c3) /\
  (forall d2, write_encrypted stored fuel rd preserve d2 g = Ok (rd', d', g')).
Proof.
  intros H. pose proof H as H0.
  apply write_encrypted_Ok in H. destruct H as (pairs & _ & Hp & -> & ->).
  pose proof (Forall2_length_eq _ _ _ Hp) as Hl.
  unfold dict_keys in Hl. rewrite length_map in Hl.
  cbn [passw_table key_table].
  rewrite count_records_length. cbn [passw_table].
  rewrite !number_length, !length_map.
  split; [reflexivity|]. split; [lia|]. split; [lia|]. split; [now rewrite Hl|].
  split.
  - intros i Hi.
    destruct (nth_error pairs i) as [pr|] eqn:E;
      [|apply nth_error_None in E; lia].
    destruct (Forall2_nth_error_r _ _ _ Hp i pr E)
      as (id & _ & record & _ & Henc).
    destruct Henc as (f0 & f1 & f2 & rest & c0 & c1 & c2 & k0 & k1 & k2
                      & _ & Er & Ek & E0 & E1 & E2).
    exists c0, c1, c2, k0, k1, k2.
    rewrite (number_nth_error _ 1 i _
               (map_nth_error (map stored) _ _ (map_nth_error fst _ _ E))), Er.
    rewrite (number_nth_error _ 1 i _
               (map_nth_error (map stored) _ _ (map_nth_error snd _ _ E))), Ek.
    apply encrypts_lengths in E0, E1, E2.
    repeat split; lia.
  - intros d2.
    now rewrite (write_encrypted_any_store stored fuel rd preserve d2 d).
Qed.

Lemma write_encrypted_replaces_store_witness :
  exists rd' d' g',
    write_encrypted keeps_text 1 scenario true store_2_3 (mkRng opening 0)
    = Ok (rd', d', g') /\
    rd' = scenario /\
    List.length (passw_table d') = 1%nat /\
    List.length (key_table d') = 1%nat.
Proof.
  destruct (write_encrypted keeps_text 1 scenario true store_2_3 (mkRng opening 0))
    as [[[rd' d'] g']| |] eqn:E; [|vm_compute in E; discriminate ..].
  exists rd', d', g'. split; [reflexivity|].
  pose proof (write_encrypted_replaces_store _ _ _ _ _ _ _ _ _ E)
    as (H1 & H2 & H3 & _).
  repeat split; assumption.
Defined.

(** The loop of [db_decryption] over aligned rows whose fields decrypt. *)
Lemma decrypt_rows_Ok (databox keybox records : list tuple) :
  (forall i rec, nth_error records i = Some rec ->
     exists id id' x0 x1 x2 k0 k1 k2 t0 t1 t2,
       nth_error databox i = Some [id; x0; x1; x2] /\
       nth_error keybox i = Some [id'; k0; k1; k2] /\
       decrypt (str x0) k0 = Ok t0 /\
       decrypt (str x1) k1 = Ok t1 /\
       decrypt (str x2) k2 = Ok t2 /\
       rec = [PStr t0; PStr t1; PStr t2]) ->
  forall n i acc,
    (i + n = List.length records)%nat ->
    decrypt_rows databox keybox i n acc = Ok (acc ++ skipn i records).
Proof.
  intros Hr. induction n as [|n IH]; intros i acc Hi.
  - rewrite skipn_all2 by lia. simpl. now rewrite app_nil_r.
  - destruct (nth_error records i) as [rec|] eqn:E;
      [|apply nth_error_None in E; lia].
    destruct (Hr i rec E)
      as (id & id' & x0 & x1 & x2 & k0 & k1 & k2 & t0 & t1 & t2
          & N1 & N2 & D0 & D1 & D2 & ->).
    cbn [decrypt_rows]. unfold index at 1 2. rewrite N1, N2.
    cbn [bind decrypt_fields]. unfold index.
    cbn [nth_error bind]. rewrite D0.
    cbn [nth_error bind]. rewrite D1.
    cbn [nth_error bind]. rewrite D2.
    simpl. rewrite IH by lia.
    rewrite (skipn_nth_error _ _ _ E). now rewrite <- app_assoc.
Qed.

Lemma dict_set_fresh (d : dict) (k : Z) (v : tuple) :
  ~ In k (dict_keys d) -> dict_set d k v = d ++ [(k, v)].
Proof.
  unfold dict_keys. induction d as [|[k' v'] d IH]; intros H; [reflexivity|].
  simpl in *. destruct (k' =? k) eqn:E.
  - apply Z.eqb_eq in E. tauto.
  - rewrite IH; tauto.
Qed.

Lemma fold_dict_set_enumerate (records : list tuple) : forall start acc,
  (forall k, In k (dict_keys acc) -> k < start) ->
  fold_left (fun d kv => dict_set d (fst kv) (snd kv)) (enumerate records start) acc
  = acc ++ enumerate records start.
Proof.
  induction records as [|r records IH]; intros start acc H; simpl.
  - now rewrite app_nil_r.
  - rewrite dict_set_fresh by (intros Hin; apply H in Hin; lia).
    rewrite IH.
    + now rewrite <- app_assoc.
    + intros k Hk. unfold dict_keys in Hk. rewrite map_app, in_app_iff in Hk.
      destruct Hk as [Hk|[Hk|[]]]; [apply H in Hk; lia | simpl in Hk; lia].
Qed.

Lemma dict_of_enumerate (records : list tuple) (start : Z) :
  dict_of (enumerate records start) = enumerate records start.
Proof.
  unfold dict_of. rewrite fold_dict_set_enumerate; [reflexivity|].
  intros k [].
Qed.

Lemma enumerate_keys (records : list tuple) : forall start,
  dict_keys (enumerate records start) = ids_from start (List.length records).
Proof.
  induction records as [|r records IH]; intros start; [reflexivity|].
  cbn [enumerate List.length ids_from]. unfold dict_keys in *. simpl.
  now rewrite IH.
Qed.

Lemma enumerate_values (records : list tuple) : forall start,
  map snd (enumerate records start) = records.
Proof.
  induction records as [|r records IH]; intros start; [reflexivity|].
  simpl. now rewrite IH.
Qed.

Lemma encodes_decrypts (record row krow : tuple) :
  stored_record record -> encodes record row krow ->
  exists f0 f1 f2 rest c0 c1 c2 k0 k1 k2,
    record = f0 :: f1 :: f2 :: rest /\
    row = [PStr c0; PStr c1; PStr c2] /\
    krow = [PStr k0; PStr k1; PStr k2] /\
    decrypt c0 (PStr k0) = Ok (str f0) /\
    decrypt c1 (PStr k1) = Ok (str f1) /\
    decrypt c2 (PStr k2) = Ok (str f2).
Proof.
  intros (_ & V)
         (f0 & f1 & f2 & rest & c0 & c1 & c2 & k0 & k1 & k2
          & -> & -> & -> & (u0 & g0 & h0 & E0) & (u1 & g1 & h1 & E1)
          & (u2 & g2 & h2 & E2)).
  inversion V as [|? ? V0 V']; subst.
  inversion V' as [|? ? V1 V'']; subst.
  inversion V'' as [|? ? V2 _]; subst.
  exists f0, f1, f2, rest, c0, c1, c2, k0, k1, k2.
  repeat split; eapply decrypt_encrypt; eassumption.
Qed.

(** Loading what a save left. *)
Lemma db_decryption_of_saved (stored : pyval -> pyval) (rd : dict)
      (pairs : list (tuple * tuple)) (yes : bool) (s1 s2 : Z) :
  NoDup (dict_keys rd) ->
  Forall stored_record (map snd rd) ->
  Forall2 (fun id pr => exists record,
               dict_get rd id = Ok record /\
               encodes record (fst pr) (snd pr)) (dict_keys rd) pairs ->
  Forall (reads_back stored) (map fst pairs) ->
  Forall (reads_back stored) (map snd pairs) ->
  let d' := mkDb (number 1 (map (map stored) (map fst pairs))) s1
                 (number 1 (map (map stored) (map snd pairs))) s2 in
  db_decryption yes d' = Ok (map reloaded (map snd rd), d', []).
Proof.
  intros N T Hp Rc Rk d'.
  pose proof (Forall2_length_eq _ _ _ Hp) as Hl.
  unfold dict_keys in Hl. rewrite length_map in Hl.
  unfold db_decryption. rewrite check_db_eq. subst d'.
  cbn [passw_table key_table].
  rewrite !append_to_list_NoDup by (rewrite app_nil_l; apply number_NoDup).
  rewrite !app_nil_l.
  destruct pairs as [|pr pairs].
  { destruct rd; [reflexivity | discriminate]. }
  set (ps := pr :: pairs) in *.
  assert (E1 : is_empty (number 1 (map (map stored) (map fst ps))) = false)
    by reflexivity.
  assert (E2 : is_empty (number 1 (map (map stored) (map snd ps))) = false)
    by reflexivity.
  rewrite E1, E2. cbn [negb andb Z.eqb Pos.eqb].
  rewrite !number_length, !length_map, Nat.eqb_refl.
  rewrite decrypt_rows_Ok with (records := map reloaded (map snd rd)).
  - reflexivity.
  - intros i rec Hi.
    rewrite !nth_error_map in Hi.
    destruct (nth_error rd i) as [[k v]|] eqn:Ei; [|discriminate].
    cbn [option_map snd] in Hi. inversion Hi; subst rec.
    destruct (nth_error ps i) as [p|] eqn:Epi;
      [|apply nth_error_None in Epi;
        assert (i < List.length rd)%nat by (apply nth_error_Some; congruence);
        lia].
    destruct (Forall2_nth_error_r _ _ _ Hp i p Epi)
      as (id & Hid & record & Hget & Henc).
    unfold dict_keys in Hid. rewrite nth_error_map, Ei in Hid.
    cbn [option_map fst] in Hid. inversion Hid; subst id.
    rewrite (dict_get_In rd k v N (nth_error_In _ _ Ei)) in Hget.
    inversion Hget; subst record.
    assert (Tv : stored_record v).
    { rewrite Forall_forall in T. apply T.
      apply in_map_iff. exists (k, v). split; [reflexivity|].
      now apply nth_error_In in Ei. }
    destruct (encodes_decrypts _ _ _ Tv Henc)
      as (f0 & f1 & f2 & rest & c0 & c1 & c2 & k0 & k1 & k2
          & -> & Er & Ek & D0 & D1 & D2).
    assert (Rp : reads_back stored (fst p) /\ reads_back stored (snd p)).
    { rewrite Forall_forall in Rc, Rk. split; [apply Rc | apply Rk];
        apply in_map, (nth_error_In _ _ Epi). }
    rewrite Er, Ek in Rp. destruct Rp as (Rp & Rq).
    apply Forall_cons_iff in Rp. destruct Rp as (R0 & Rp).
    apply Forall_cons_iff in Rp. destruct Rp as (R1 & Rp).
    apply Forall_cons_iff in Rp. destruct Rp as (R2 & _).
    apply Forall_cons_iff in Rq. destruct Rq as (Q0 & Rq).
    apply Forall_cons_iff in Rq. destruct Rq as (Q1 & Rq).
    apply Forall_cons_iff in Rq. destruct Rq as (Q2 & _).
    cbn [str] in R0, R1, R2, Q0, Q1, Q2.
    exists (PInt (1 + Z.of_nat i)), (PInt (1 + Z.of_nat i)),
           (stored (PStr c0)), (stored (PStr c1)), (stored (PStr c2)),
           (stored (PStr k0)), (stored (PStr k1)), (stored (PStr k2)),
           (str f0), (str f1), (str f2).
    rewrite (number_nth_error _ 1 i _
               (map_nth_error (map stored) _ _ (map_nth_error fst _ _ Epi))), Er.
    rewrite (number_nth_error _ 1 i _
               (map_nth_error (map stored) _ _ (map_nth_error snd _ _ Epi))), Ek.
    rewrite R0, R1, R2.
    rewrite (decrypt_str_key c0), (decrypt_str_key c1), (decrypt_str_key c2).
    rewrite Q0, Q1, Q2.
    repeat split; assumption.
  - rewrite !length_map. lia.
Qed.

Lemma text_record_stored (r : tuple) :
  text_record r -> stored_record r /\ reloaded r = r.
Proof.
  intros (a & b & c & -> & Va & Vb & Vc).
  split; [|reflexivity]. split; [simpl; lia|].
  repeat constructor; assumption.
Qed.

Lemma encrypt_fields_mono (fuel : nat) (record : tuple) :
  forall el kl g r,
    encrypt_fields fuel record el kl g = Ok r ->
    forall fuel', (fuel <= fuel')%nat ->
                  encrypt_fields fuel' record el kl g = Ok r.
Proof.
  induction record as [|x record IH]; intros el kl g r H fuel' Hle;
    cbn [encrypt_fields] in *; [assumption|].
  bind_inv H. destruct a as [[ct key] g1].
  rewrite (encrypt_mono _ _ _ _ Ha _ Hle). cbn [bind]. eauto.
Qed.

Lemma encrypt_fields_returns (record : tuple) :
  forall el kl g, fair (draws g) ->
    exists fuel r, encrypt_fields fuel record el kl g = Ok r.
Proof.
  induction record as [|x record IH]; intros el kl g F.
  - exists O. simpl. eauto.
  - destruct (encrypt_returns (str x) g F) as (f1 & ct & key & g1 & H1).
    pose proof (encrypt_lengths _ _ _ _ _ _ H1) as (_ & _ & Hd).
    rewrite <- Hd in F.
    destruct (IH (el ++ [ct]) (kl ++ [key]) g1 F) as (f2 & r & H2).
    exists (Nat.max f1 f2), r. cbn [encrypt_fields].
    rewrite (encrypt_mono _ _ _ _ H1) by lia. cbn [bind].
    apply (encrypt_fields_mono _ _ _ _ _ _ H2). lia.
Qed.

Lemma encrypt_records_mono (fuel : nat) (rd : dict) (ids : list Z) :
  forall recs keys g r,
    encrypt_records fuel rd ids recs keys g = Ok r ->
    forall fuel', (fuel <= fuel')%nat ->
                  encrypt_records fuel' rd ids recs keys g = Ok r.
Proof.
  induction ids as [|id ids IH]; intros recs keys g r H fuel' Hle;
    cbn [encrypt_records] in *; [assumption|].
  bind_inv H. rewrite Ha. cbn [bind].
  bind_inv H. destruct a0 as [[el kl] g1].
  rewrite (encrypt_fields_mono _ _ _ _ _ _ Ha0 _ Hle). cbn [bind].
  repeat (bind_inv H;
          match goal with E : index _ _ = Ok _ |- _ => rewrite E; clear E end;
          cbn [bind]).
  eauto.
Qed.

Lemma encrypt_records_returns (rd : dict) (ids : list Z) :
  Forall (fun id => exists record,
              dict_get rd id = Ok record /\ (3 <= List.length record)%nat) ids ->
  forall recs keys g, fair (draws g) ->
    exists fuel r, encrypt_records fuel rd ids recs keys g = Ok r.
Proof.
  induction 1 as [|id ids (record & Hget & Hlen) _ IH]; intros recs keys g F.
  - exists O. simpl. eauto.
  - destruct (encrypt_fields_returns record [] [] g F)
      as (f1 & [[el kl] g1] & H1).
    pose proof (encrypt_fields_Ok _ _ _ _ _ _ _ _ H1)
      as (qs & El & Kl & Hd & Hq).
    rewrite app_nil_l in El, Kl. subst el kl.
    apply Forall2_length_eq in Hq.
    destruct qs as [|q0 [|q1 [|q2 qs]]]; simpl in Hq; try lia.
    rewrite <- Hd in F.
    destruct (IH (recs ++ [[PStr (fst q0); PStr (fst q1); PStr (fst q2)]])
                 (keys ++ [[PStr (snd q0); PStr (snd q1); PStr (snd q2)]]) g1 F)
      as (f2 & r & H2).
    exists (Nat.max f1 f2), r. cbn [encrypt_records].
    rewrite Hget. cbn [bind].
    rewrite (encrypt_fields_mono _ _ _ _ _ _ H1) by lia.
    cbn [bind map fst snd]. unfold index. cbn [nth_error bind].
    apply (encrypt_records_mono _ _ _ _ _ _ _ H2). lia.
Qed.

Lemma dict_lookups (rd : dict) :
  NoDup (dict_keys rd) ->
  Forall (fun kv => dict_get rd (fst kv) = Ok (snd kv)) rd.
Proof.
  intros N. apply Forall_forall. intros [k v] Hin. now apply dict_get_In.
Qed.

Lemma record_encryption_returns (rd : dict) (g : rng) :
  NoDup (dict_keys rd) ->
  Forall (fun r : tuple => (3 <= List.length r)%nat) (map snd rd) ->
  fair (draws g) ->
  exists fuel r, record_encryption fuel rd g = Ok r.
Proof.
  intros N T F.
  unfold record_encryption. destruct rd as [|kv rd0] eqn:E.
  - exists O. simpl. eauto.
  - cbn [is_empty negb]. rewrite <- E in *. apply encrypt_records_returns; trivial.
    unfold dict_keys. apply Forall_forall. intros id Hin.
    apply in_map_iff in Hin. destruct Hin as ([k v] & <- & Hin).
    exists v. split; [now apply dict_get_In|].
    rewrite Forall_forall in T. apply T. apply in_map_iff. now exists (k, v).
Qed.

Lemma write_encrypted_returns (stored : pyval -> pyval) (rd : dict)
      (preserve : bool) (d : db) (g : rng) :
  NoDup (dict_keys rd) ->
  Forall (fun r : tuple => (3 <= List.length r)%nat) (map snd rd) ->
  fair (draws g) ->
  exists fuel rd' d' g',
    write_encrypted stored fuel rd preserve d g = Ok (rd', d', g').
Proof.
  intros N T F.
  assert (R : exists fuel r, record_encryption fuel rd g = Ok r).
  { unfold record_encryption. destruct rd as [|kv rd0] eqn:E.
    - exists O. simpl. eauto.
    - cbn [is_empty negb]. rewrite <- E in *. apply encrypt_records_returns; trivial.
      unfold dict_keys. apply Forall_forall. intros id Hin.
      apply in_map_iff in Hin. destruct Hin as ([k v] & <- & Hin).
      exists v. split; [now apply dict_get_In|].
      rewrite Forall_forall in T. apply T. apply in_map_iff. now exists (k, v). }
  destruct R as (fuel & [[recs keys] g1] & H).
  destruct (record_encryption_Ok _ _ _ _ _ _ H) as (pairs & -> & -> & _ & Hp).
  exists fuel. do 3 eexists.
  apply write_encrypted_eq; [exact H | exact (encoded_pairs_shape _ _ _ Hp)].
Qed.

(** Saving and then loading, when the store reads back the texts that
    [record_encryption] made. *)
Lemma save_then_load (stored : pyval -> pyval) (rd : dict) (preserve : bool)
      (d : db) (g : rng) (fuel : nat) (records keys : list tuple) (g' : rng)
      (yes : bool) :
  NoDup (dict_keys rd) ->
  Forall stored_record (map snd rd) ->
  record_encryption fuel rd g = Ok (records, keys, g') ->
  Forall (reads_back stored) records ->
  Forall (reads_back stored) keys ->
  exists d',
    write_encrypted stored fuel rd preserve d g
    = Ok (if preserve then rd else [], d', g') /\
    db_decryption yes d' = Ok (map reloaded (map snd rd), d', []).
Proof.
  intros N S H Rc Rk.
  destruct (record_encryption_Ok _ _ _ _ _ _ H) as (pairs & -> & -> & _ & Hp).
  eexists. split.
  - apply write_encrypted_eq; [exact H | exact (encoded_pairs_shape _ _ _ Hp)].
  - exact (db_decryption_of_saved stored rd pairs yes _ _ N S Hp Rc Rk).
Qed.

(** X8 (store round trip).  For a record set of text records, when
    the store reads back the ciphertexts and the key texts that
    [record_encryption] made, saving with [write_encrypted] and
    loading with [db_decryption] gives the records back, field for
    field and in order, with no message box; [create_dict] numbers
    them 1, 2, ... in that order.  With a random source that
    eventually draws each value the save does return. *)
Theorem store_round_trip (stored : pyval -> pyval) (rd : dict)
        (preserve : bool) (d : db) (g : rng) :
  NoDup (dict_keys rd) ->
  Forall text_record (map snd rd) ->
  (forall fuel records keys g' yes,
      record_encryption fuel rd g = Ok (records, keys, g') ->
      Forall (reads_back stored) records ->
      Forall (reads_back stored) keys ->
      exists d',
        write_encrypted stored fuel rd preserve d g
        = Ok (if preserve then rd else [], d', g') /\
        db_decryption yes d' = Ok (map snd rd, d', []) /\
        create_dict yes d' = Ok (enumerate (map snd rd) 1, d', [])) /\
  (fair (draws g) ->
   exists fuel rd' d' g',
     write_encrypted stored fuel rd preserve d g = Ok (rd', d', g')).
Proof.
  intros N T.
  assert (S : Forall stored_record (map snd rd)).
  { apply Forall_forall. intros r Hr. rewrite Forall_forall in T.
    now apply text_record_stored, T. }
  assert (R : map reloaded (map snd rd) = map snd rd).
  { rewrite <- (map_id (map snd rd)) at 2. apply map_ext_in. intros r Hr.
    rewrite Forall_forall in T. now apply text_record_stored, T. }
  split.
  - intros fuel records keys g' yes H Rc Rk.
    destruct (save_then_load stored rd preserve d g fuel records keys g' yes
                N S H Rc Rk) as (d' & W & D).
    rewrite R in D. exists d'. split; [exact W|]. split; [exact D|].
    unfold create_dict. rewrite D. cbn [bind].
    now rewrite dict_of_enumerate.
  - apply write_encrypted_returns; trivial.
    apply Forall_forall. intros r Hr. rewrite Forall_forall in S.
    now apply S.
Qed.

Lemma store_round_trip_witness :
  NoDup (dict_keys three_records) /\
  Forall text_record (map snd three_records) /\
  fair (draws (mkRng opening 0)) /\
  record_encryption 1 three_records (mkRng opening 0)
  = Ok ([record "AAAAAA" "AAA" "AAA"; record "AAAA" "AAA" "AAA";
         record "AAAA" "AAA" "AAA"],
        [record "-6 -46 -46 -38 -43 -36" "-32 -45 -45" "-47 -54 16";
         record "-12 -32 -40 -43" "-33 -46 -33" "-47 -54 15";
         record "-1 -32 -45 -42" "-34 -32 -51" "-47 -54 14"],
        mkRng opening 32) /\
  (exists fuel rd' d' g',
      write_encrypted keeps_text fuel three_records true store_2_3
                      (mkRng opening 0)
      = Ok (rd', d', g')) /\
  exists d',
    write_encrypted keeps_text 1 three_records true store_2_3 (mkRng opening 0)
    = Ok (three_records, d', mkRng opening 32) /\
    db_decryption true d' = Ok (map snd three_records, d', []) /\
    create_dict true d' = Ok (three_records, d', []).
Proof.
  assert (H1 : NoDup (dict_keys three_records)).
  { repeat constructor; simpl; intuition discriminate. }
  assert (H2 : Forall text_record (map snd three_records)).
  { repeat constructor;
      (do 3 eexists; split; [reflexivity|];
       repeat split; repeat constructor; unfold codepoint; simpl; lia). }
  assert (H : record_encryption 1 three_records (mkRng opening 0)
              = Ok ([record "AAAAAA" "AAA" "AAA"; record "AAAA" "AAA" "AAA";
                     record "AAAA" "AAA" "AAA"],
                    [record "-6 -46 -46 -38 -43 -36" "-32 -45 -45" "-47 -54 16";
                     record "-12 -32 -40 -43" "-33 -46 -33" "-47 -54 15";
                     record "-1 -32 -45 -42" "-34 -32 -51" "-47 -54 14"],
                    mkRng opening 32)) by reflexivity.
  destruct (store_round_trip keeps_text three_records true store_2_3
              (mkRng opening 0) H1 H2) as (A & B).
  split; [exact H1|]. split; [exact H2|]. split; [exact opening_fair|].
  split; [exact H|]. split; [exact (B opening_fair)|].
  refine (A 1%nat _ _ _ true H _ _); repeat constructor.
Defined.

(** X9.  What a save and a load make of records that are not three
    strings: for records of three fields or more, when the store reads
    back the ciphertexts and the key texts that [record_encryption]
    made, [db_decryption] after [write_encrypted] returns, for each
    record and in order, the texts of its first three fields -- a
    number comes back as the string of its digits, and a fourth field
    is not stored at all. *)
Theorem save_keeps_three_texts (stored : pyval -> pyval) (rd : dict)
        (preserve : bool) (d : db) (g : rng)
        (fuel : nat) (records keys : list tuple) (g' : rng) (yes : bool) :
  NoDup (dict_keys rd) ->
  Forall stored_record (map snd rd) ->
  record_encryption fuel rd g = Ok (records, keys, g') ->
  Forall (reads_back stored) records ->
  Forall (reads_back stored) keys ->
  exists d',
    write_encrypted stored fuel rd preserve d g
    = Ok (if preserve then rd else [], d', g') /\
    db_decryption yes d' = Ok (map reloaded (map snd rd), d', []).
Proof.
  intros N S H Rc Rk.
  destruct (record_encryption_Ok _ _ _ _ _ _ H) as (pairs & -> & -> & _ & Hp).
  exists (mkDb (number 1 (map (map stored) (map fst pairs)))
               (Z.of_nat (List.length pairs))
               (number 1 (map (map stored) (map snd pairs)))
               (Z.of_nat (List.length pairs))).
  split.
  - apply write_encrypted_eq; [exact H | exact (encoded_pairs_shape _ _ _ Hp)].
  - exact (db_decryption_of_saved stored rd pairs yes _ _ N S Hp Rc Rk).
Qed.

Lemma save_keeps_three_texts_witness :
  record_encryption 1 [(1, row 42 "Google" "ann" "pw1")] (mkRng opening 0)
  = Ok ([record "AA" "AAAAAA" "AAA"],
        [record "13 15" "-6 -46 -46 -38 -43 -36" "-32 -45 -45"],
        mkRng opening 14) /\
  exists d',
    write_encrypted keeps_text 1 [(1, row 42 "Google" "ann" "pw1")] true
                    store_empty (mkRng opening 0)
    = Ok ([(1, row 42 "Google" "ann" "pw1")], d', mkRng opening 14) /\
    db_decryption true d'
    = Ok ([[PStr (lit "42"); PStr (lit "Google"); PStr (lit "ann")]], d', []).
Proof.
  assert (H : record_encryption 1 [(1, row 42 "Google" "ann" "pw1")]
                                (mkRng opening 0)
              = Ok ([record "AA" "AAAAAA" "AAA"],
                    [record "13 15" "-6 -46 -46 -38 -43 -36" "-32 -45 -45"],
                    mkRng opening 14)) by reflexivity.
  split; [exact H|].
  refine (save_keeps_three_texts keeps_text _ true store_empty _ _ _ _ _ true
            _ _ H _ _).
  - repeat constructor. simpl. tauto.
  - repeat constructor; unfold codepoint; simpl; lia.
  - repeat constructor.
  - repeat constructor.
Defined.

(** [decrypt] under a key of more shifts than the ciphertext has
    characters. *)
Lemma decrypt_more_shifts (cipher : pystr) (keytext : pyval) :
  (List.length cipher < List.length (split (str keytext)))%nat ->
  exists e, decrypt cipher keytext = Raise e.
Proof.
  intros Hlt. unfold decrypt, _user_input. rewrite map_ord.
  destruct (decrypt_loop cipher (split (str keytext)) 0
              (List.length (split (str keytext))) []) as [r|e|] eqn:E.
  - apply decrypt_loop_Ok in E. destruct E as ([E|E] & _); simpl in E; lia.
  - exists e. reflexivity.
  - now apply decrypt_loop_not_Timeout in E.
Qed.

Lemma decrypt_not_Timeout (cipher : pystr) (keytext : pyval) :
  decrypt cipher keytext <> Timeout.
Proof.
  unfold decrypt.
  pose proof (decrypt_loop_not_Timeout (_user_input cipher) (split (str keytext))
                (List.length (split (str keytext))) 0 []) as H.
  destruct (decrypt_loop (_user_input cipher) (split (str keytext)) 0
              (List.length (split (str keytext))) []); simpl; congruence.
Qed.

Opaque decrypt.

(** [db_decryption] on a store of one cipher row and one key row:
    three calls of [decrypt], one per field. *)
Lemma db_decryption_one_row (yes : bool) (d : db)
      (id id' x1 x2 x3 y1 y2 y3 : pyval) :
  passw_table d = [[id; x1; x2; x3]] ->
  key_table d = [[id'; y1; y2; y3]] ->
  db_decryption yes d
  = (t1 <- decrypt (str x1) y1 ;;
     t2 <- decrypt (str x2) y2 ;;
     t3 <- decrypt (str x3) y3 ;;
     Ok ([[PStr t1; PStr t2; PStr t3]], d, [])).
Proof.
  intros Hp Hk. unfold db_decryption. rewrite check_db_eq, Hp, Hk. simpl.
  destruct (decrypt (str x1) y1) as [t1| |]; simpl; trivial.
  destruct (decrypt (str x2) y2) as [t2| |]; simpl; trivial.
  destruct (decrypt (str x3) y3) as [t3| |]; simpl; trivial.
Qed.

Transparent decrypt.

(** X23.  A cell that comes back shorter than it was written breaks
    the load: on a store of one cipher row and one key row,
    [db_decryption] raises and returns no record as soon as the text
    of one of the three cipher cells has fewer characters than its
    key has shifts. *)
Theorem short_cell_breaks_load (yes : bool) (d : db)
        (id id' x1 x2 x3 y1 y2 y3 : pyval) :
  passw_table d = [[id; x1; x2; x3]] ->
  key_table d = [[id'; y1; y2; y3]] ->
  (List.length (str x1) < List.length (split (str y1)))%nat \/
  (List.length (str x2) < List.length (split (str y2)))%nat \/
  (List.length (str x3) < List.length (split (str y3)))%nat ->
  exists e, db_decryption yes d = Raise e.
Proof.
  intros Hp Hk Hs.
  rewrite (db_decryption_one_row yes d id id' x1 x2 x3 y1 y2 y3 Hp Hk).
  pose proof (decrypt_not_Timeout (str x1) y1) as T1.
  pose proof (decrypt_not_Timeout (str x2) y2) as T2.
  pose proof (decrypt_not_Timeout (str x3) y3) as T3.
  assert (S : forall c k t, decrypt c k = Ok t ->
                ~ (List.length c < List.length (split (str k)))%nat).
  { intros c k t E H. apply decrypt_more_shifts in H.
    destruct H as (e & H). congruence. }
  destruct (decrypt (str x1) y1) as [t1|e1|] eqn:E1; cbn [bind];
    [|eauto|congruence].
  destruct (decrypt (str x2) y2) as [t2|e2|] eqn:E2; cbn [bind];
    [|eauto|congruence].
  destruct (decrypt (str x3) y3) as [t3|e3|] eqn:E3; cbn [bind];
    [|eauto|congruence].
  exfalso. destruct Hs as [H|[H|H]];
    [exact (S _ _ _ E1 H) | exact (S _ _ _ E2 H) | exact (S _ _ _ E3 H)].
Qed.

Lemma short_cell_breaks_load_witness :
  (List.length (str (PInt 1234567))
   < List.length (split (lit "-35 -52 -49 -63 -49 -63 5 22")))%nat /\
  (exists e,
      db_decryption true
        (mkDb [[PInt 1; PStr (lit "AAAAAA"); PStr (lit "AAAAAAAAAA");
                PInt 1234567]] 1
              [PInt 1 :: record "-6 -46 -46 -38 -43 -36"
                                "-52 -50 -36 -49 1 -55 19 -34 -46 -44"
                                "-35 -52 -49 -63 -49 -63 5 22"] 1)
      = Raise e) /\
  decrypt (lit "01234567") (PStr (lit "-35 -52 -49 -63 -49 -63 5 22"))
  = Ok (lit "Secret1!") /\
  decrypt (str (PInt 1234567)) (PStr (lit "-35 -52 -49 -63 -49 -63 5 22"))
  = Raise IndexError.
Proof.
  assert (H : (List.length (str (PInt 1234567))
               < List.length (split (lit "-35 -52 -49 -63 -49 -63 5 22")))%nat)
    by (vm_compute; lia).
  split; [exact H|]. split; [|split; reflexivity].
  exact (short_cell_breaks_load true
           (mkDb [[PInt 1; PStr (lit "AAAAAA"); PStr (lit "AAAAAAAAAA");
                   PInt 1234567]] 1
                 [PInt 1 :: record "-6 -46 -46 -38 -43 -36"
                                   "-52 -50 -36 -49 1 -55 19 -34 -46 -44"
                                   "-35 -52 -49 -63 -49 -63 5 22"] 1)
           (PInt 1) (PInt 1)
           (PStr (lit "AAAAAA")) (PStr (lit "AAAAAAAAAA")) (PInt 1234567)
           (PStr (lit "-6 -46 -46 -38 -43 -36"))
           (PStr (lit "-52 -50 -36 -49 1 -55 19 -34 -46 -44"))
           (PStr (lit "-35 -52 -49 -63 -49 -63 5 22"))
           eq_refl eq_refl (or_intror (or_intror H))).
Defined.

(* ================================================================= *)
(** ** The record set in memory *)

Lemma dict_mem_In (d : dict) (k : Z) :
  dict_mem d k = true <-> In k (dict_keys d).
Proof.
  unfold dict_mem, dict_keys. rewrite existsb_exists, in_map_iff. split.
  - intros (kv & Hin & E). apply Z.eqb_eq in E. now exists kv.
  - intros (kv & E & Hin). exists kv. split; [assumption | now apply Z.eqb_eq].
Qed.

Lemma dict_mem_not_In (d : dict) (k : Z) :
  dict_mem d k = false <-> ~ In k (dict_keys d).
Proof.
  rewrite <- dict_mem_In. destruct (dict_mem d k); split; congruence.
Qed.

Lemma dict_get_set_same (d : dict) (k : Z) (v : tuple) :
  dict_get (dict_set d k v) k = Ok v.
Proof.
  induction d as [|[k' v'] d IH]; simpl.
  - now rewrite Z.eqb_refl.
  - destruct (k' =? k) eqn:E; simpl; [now rewrite Z.eqb_refl | now rewrite E].
Qed.

Lemma dict_get_set_other (d : dict) (k k0 : Z) (v : tuple) :
  k0 <> k -> dict_get (dict_set d k v) k0 = dict_get d k0.
Proof.
  intros Hne. induction d as [|[k' v'] d IH]; simpl.
  - apply Z.eqb_neq in Hne. rewrite Z.eqb_sym in Hne. now rewrite Hne.
  - destruct (k' =? k) eqn:E; simpl.
    + apply Z.eqb_eq in E. subst k'.
      assert (E' : (k =? k0) = false) by (apply Z.eqb_neq; congruence).
      now rewrite E'.
    + destruct (k' =? k0); [reflexivity | exact IH].
Qed.

Lemma dict_keys_set_present (d : dict) (k : Z) (v : tuple) :
  In k (dict_keys d) -> dict_keys (dict_set d k v) = dict_keys d.
Proof.
  unfold dict_keys. induction d as [|[k' v'] d IH]; intros H; [destruct H|].
  simpl in *. destruct (k' =? k) eqn:E; simpl.
  - apply Z.eqb_eq in E. now subst.
  - f_equal. apply IH. destruct H as [H|H]; [|assumption].
    apply Z.eqb_neq in E. congruence.
Qed.

Lemma dict_keys_set_fresh (d : dict) (k : Z) (v : tuple) :
  ~ In k (dict_keys d) -> dict_keys (dict_set d k v) = dict_keys d ++ [k].
Proof.
  intros H. rewrite dict_set_fresh by assumption.
  unfold dict_keys. now rewrite map_app.
Qed.

Lemma dict_set_NoDup (d : dict) (k : Z) (v : tuple) :
  NoDup (dict_keys d) -> NoDup (dict_keys (dict_set d k v)).
Proof.
  intros N. destruct (in_dec Z.eq_dec k (dict_keys d)) as [H|H].
  - now rewrite dict_keys_set_present.
  - rewrite dict_keys_set_fresh by assumption.
    apply NoDup_app; trivial.
    + repeat constructor. simpl. tauto.
    + intros x Hx [<-|[]]. tauto.
Qed.

Lemma dict_set_keys_In (d : dict) (k k0 : Z) (v : tuple) :
  In k0 (dict_keys (dict_set d k v)) <-> k0 = k \/ In k0 (dict_keys d).
Proof.
  destruct (in_dec Z.eq_dec k (dict_keys d)) as [H|H].
  - rewrite dict_keys_set_present by assumption. split; [tauto|].
    intros [->|H']; assumption.
  - rewrite dict_keys_set_fresh, in_app_iff by assumption. simpl.
    split; [intros [?|[?|[]]]; auto | intros [?|?]; auto].
Qed.

Lemma dict_keys_filter (d : dict) (k : Z) :
  dict_keys (filter (fun kv => negb (fst kv =? k)) d)
  = filter (fun k' => negb (k' =? k)) (dict_keys d).
Proof.
  unfold dict_keys. induction d as [|[k' v'] d IH]; [reflexivity|].
  simpl. destruct (k' =? k); simpl; now rewrite IH.
Qed.

Lemma dict_get_filter_other (d : dict) (k k0 : Z) :
  k0 <> k ->
  dict_get (filter (fun kv => negb (fst kv =? k)) d) k0 = dict_get d k0.
Proof.
  intros Hne. induction d as [|[k' v'] d IH]; [reflexivity|].
  simpl. destruct (k' =? k) eqn:E; simpl.
  - apply Z.eqb_eq in E. subst k'.
    assert (E' : (k =? k0) = false) by (apply Z.eqb_neq; congruence).
    now rewrite E'.
  - destruct (k' =? k0); [reflexivity | exact IH].
Qed.

Lemma dict_get_filter_same (d : dict) (k : Z) :
  dict_get (filter (fun kv => negb (fst kv =? k)) d) k = Raise KeyError.
Proof.
  induction d as [|[k' v'] d IH]; [reflexivity|].
  simpl. destruct (k' =? k) eqn:E; simpl; [exact IH | now rewrite E].
Qed.

Lemma ids_from_In (n : nat) : forall start k,
  In k (ids_from start n) <-> start <= k < start + Z.of_nat n.
Proof.
  induction n as [|n IH]; intros start k.
  - simpl. lia.
  - cbn [ids_from In]. rewrite IH. lia.
Qed.

Lemma ids_from_NoDup (n : nat) : forall start, NoDup (ids_from start n).
Proof.
  induction n as [|n IH]; intros start; simpl; constructor; [|apply IH].
  rewrite ids_from_In. lia.
Qed.

Lemma ids_from_length (n : nat) : forall start,
  List.length (ids_from start n) = n.
Proof. induction n; intros start; simpl; [|rewrite IHn]; reflexivity. Qed.

Lemma ids_from_snoc (n : nat) : forall start,
  ids_from start (S n) = ids_from start n ++ [start + Z.of_nat n].
Proof.
  induction n as [|n IH]; intros start.
  - simpl. now rewrite Z.add_0_r.
  - change (ids_from start (S (S n)))
      with (start :: ids_from (start + 1) (S n)).
    rewrite IH. simpl. do 3 f_equal. lia.
Qed.

(** X10.  [add_new_record], confirmed, stores the new record under
    the id [len(record_dict) + 1] and leaves the record of every other
    id as it was; when that id is free the record set grows by this
    one entry, at the end, and when it is taken no id is added: the
    record that had it is replaced.  Declined, it leaves the record
    set as it is. *)
Theorem add_new_record_spec (site un pw : pystr) (rd : dict) :
  let new_index := Z.of_nat (List.length rd) + 1 in
  let rd' := fst (add_new_record true site un pw rd) in
  dict_get rd' new_index = Ok [PStr site; PStr un; PStr pw] /\
  (forall k, k <> new_index -> dict_get rd' k = dict_get rd k) /\
  (~ In new_index (dict_keys rd) -> dict_keys rd' = dict_keys rd ++ [new_index]) /\
  (In new_index (dict_keys rd) -> dict_keys rd' = dict_keys rd) /\
  fst (add_new_record false site un pw rd) = rd.
Proof.
  cbv zeta. unfold add_new_record. cbn [fst].
  split; [apply dict_get_set_same|].
  split; [intros k Hk; now apply dict_get_set_other|].
  split; [apply dict_keys_set_fresh|].
  split; [apply dict_keys_set_present | reflexivity].
Qed.

Lemma add_new_record_spec_witness :
  ~ In 4 (dict_keys three_records) /\
  dict_keys (fst (add_new_record true (lit "Shop") (lit "dan") (lit "pw4")
                                 three_records))
  = [1; 2; 3; 4].
Proof.
  assert (H : ~ In (Z.of_nat (List.length three_records) + 1)
                (dict_keys three_records))
    by (simpl; intuition discriminate).
  split; [exact H|].
  exact (proj1 (proj2 (proj2 (add_new_record_spec (lit "Shop") (lit "dan")
                                (lit "pw4") three_records))) H).
Defined.

(** X11.  On a record set whose ids are 1, ..., n -- as [create_dict]
    builds it, and as it stays while records are only added -- a
    confirmed [add_new_record] gives the new record the id n + 1 and
    keeps every record there was, under its id: the ids are then
    1, ..., n + 1. *)
Theorem add_new_record_contiguous (site un pw : pystr) (rd : dict) (n : nat) :
  dict_keys rd = ids_from 1 n ->
  let rd' := fst (add_new_record true site un pw rd) in
  dict_keys rd' = ids_from 1 (S n) /\
  dict_get rd' (1 + Z.of_nat n) = Ok [PStr site; PStr un; PStr pw] /\
  (forall k, In k (dict_keys rd) -> dict_get rd' k = dict_get rd k).
Proof.
  intros Hk. cbv zeta. unfold add_new_record. cbn [fst].
  assert (Hl : List.length rd = n).
  { apply (f_equal (@List.length Z)) in Hk.
    unfold dict_keys in Hk. now rewrite length_map, ids_from_length in Hk. }
  rewrite Hl.
  assert (Hf : ~ In (Z.of_nat n + 1) (dict_keys rd))
    by (rewrite Hk, ids_from_In; lia).
  split.
  - rewrite dict_keys_set_fresh, Hk, ids_from_snoc by assumption.
    do 2 f_equal. lia.
  - split.
    + replace (1 + Z.of_nat n) with (Z.of_nat n + 1) by lia.
      apply dict_get_set_same.
    + intros k Hin. apply dict_get_set_other. congruence.
Qed.

Lemma add_new_record_contiguous_witness :
  dict_keys three_records = ids_from 1 3 /\
  dict_keys (fst (add_new_record true (lit "Shop") (lit "dan") (lit "pw4")
                                 three_records))
  = ids_from 1 4.
Proof.
  assert (H : dict_keys three_records = ids_from 1 3) by reflexivity.
  split; [exact H|].
  exact (proj1 (add_new_record_contiguous (lit "Shop") (lit "dan") (lit "pw4")
                  three_records 3 H)).
Defined.

Lemma delete_record_present (rd : dict) (index : Z) :
  In index (dict_keys rd) ->
  delete_record true rd index
  = Ok (filter (fun kv => negb (fst kv =? index)) rd,
        [askquestion "Delete Record" "Delete record?";
         showinfo INFO_BOX_TITLE "Record deleted."]).
Proof.
  intros H. apply dict_mem_In in H.
  unfold delete_record, dict_del. now rewrite H.
Qed.

(** X12.  [delete_record], confirmed, raises KeyError for an id that
    is not in the record set; for an id that is, it removes that entry
    and no other: the id is gone, the other ids keep their order and
    their records.  Declined, it leaves the record set as it is, even
    for an id that is not there. *)
Theorem delete_record_spec (rd : dict) (index : Z) :
  (~ In index (dict_keys rd) -> delete_record true rd index = Raise KeyError) /\
  (In index (dict_keys rd) ->
   exists rd' boxes,
     delete_record true rd index = Ok (rd', boxes) /\
     dict_keys rd' = filter (fun k => negb (k =? index)) (dict_keys rd) /\
     dict_get rd' index = Raise KeyError /\
     (forall k, k <> index -> dict_get rd' k = dict_get rd k)) /\
  (exists boxes, delete_record false rd index = Ok (rd, boxes)).
Proof.
  split; [|split].
  - intros H. apply dict_mem_not_In in H.
    unfold delete_record, dict_del. now rewrite H.
  - intros H. rewrite (delete_record_present rd index H).
    do 2 eexists. split; [reflexivity|].
    split; [apply dict_keys_filter|].
    split; [apply dict_get_filter_same|].
    intros k Hk. now apply dict_get_filter_other.
  - unfold delete_record. eexists. reflexivity.
Qed.

Lemma delete_record_spec_witness :
  (~ In 7 (dict_keys three_records)) /\
  delete_record true three_records 7 = Raise KeyError /\
  In 2 (dict_keys three_records) /\
  exists rd' boxes,
    delete_record true three_records 2 = Ok (rd', boxes) /\
    dict_keys rd' = [1; 3].
Proof.
  assert (H1 : ~ In 7 (dict_keys three_records))
    by (simpl; intuition discriminate).
  assert (H2 : In 2 (dict_keys three_records)) by (simpl; tauto).
  split; [exact H1|].
  split; [exact (proj1 (delete_record_spec three_records 7) H1)|].
  split; [exact H2|].
  destruct (proj1 (proj2 (delete_record_spec three_records 2)) H2)
    as (rd' & boxes & E & K & _).
  exists rd', boxes. split; [exact E | exact K].
Defined.

(** X13.  [change_record], confirmed, stores the new record under the
    given id and leaves the record of every other id as it was; for an
    id of the record set the ids and their order do not change, and
    for an id that is not there (a record deleted meanwhile) the
    record is added at the end.  Declined, it leaves the record set as
    it is. *)
Theorem change_record_spec (site un pw : pystr) (rd : dict) (index : Z) :
  let rd' := fst (change_record true site un pw rd index) in
  dict_get rd' index = Ok [PStr site; PStr un; PStr pw] /\
  (forall k, k <> index -> dict_get rd' k = dict_get rd k) /\
  (In index (dict_keys rd) -> dict_keys rd' = dict_keys rd) /\
  (~ In index (dict_keys rd) -> dict_keys rd' = dict_keys rd ++ [index]) /\
  fst (change_record false site un pw rd index) = rd.
Proof.
  cbv zeta. unfold change_record. cbn [fst].
  split; [apply dict_get_set_same|].
  split; [intros k Hk; now apply dict_get_set_other|].
  split; [apply dict_keys_set_present|].
  split; [apply dict_keys_set_fresh | reflexivity].
Qed.

Lemma change_record_spec_witness :
  In 2 (dict_keys three_records) /\
  dict_keys (fst (change_record true (lit "Mail") (lit "bob") (lit "new")
                                three_records 2))
  = dict_keys three_records.
Proof.
  assert (H : In 2 (dict_keys three_records)) by (simpl; tauto).
  split; [exact H|].
  exact (proj1 (proj2 (proj2 (change_record_spec (lit "Mail") (lit "bob")
                                (lit "new") three_records 2))) H).
Defined.

(** X14.  In every record set a session reaches from the one
    [create_dict] built -- by adding, by changing at a positive id and
    by deleting -- the ids are positive and no id occurs twice. *)
Theorem reachable_ids_positive_unique (rd : dict) :
  reachable rd ->
  NoDup (dict_keys rd) /\ Forall (fun k => 0 < k) (dict_keys rd).
Proof.
  induction 1 as [records | rd yes site un pw _ [N P]
                  | rd yes site un pw index _ [N P] Hpos
                  | rd rd' yes index boxes _ [N P] Hdel].
  - rewrite dict_of_enumerate, enumerate_keys. split.
    + apply ids_from_NoDup.
    + apply Forall_forall. intros k Hk. apply ids_from_In in Hk. lia.
  - unfold add_new_record. destruct yes; cbn [fst]; [|now split].
    split; [now apply dict_set_NoDup|].
    apply Forall_forall. intros k Hk. apply dict_set_keys_In in Hk.
    destruct Hk as [->|Hk]; [lia|].
    rewrite Forall_forall in P. now apply P.
  - unfold change_record. destruct yes; cbn [fst]; [|now split].
    split; [now apply dict_set_NoDup|].
    apply Forall_forall. intros k Hk. apply dict_set_keys_In in Hk.
    destruct Hk as [->|Hk]; [assumption|].
    rewrite Forall_forall in P. now apply P.
  - unfold delete_record, dict_del in Hdel. destruct yes.
    + destruct (dict_mem rd index); [|discriminate].
      cbn [bind] in Hdel. inversion Hdel; subst.
      rewrite dict_keys_filter. split.
      * now apply NoDup_filter.
      * apply Forall_forall. intros k Hk. apply filter_In in Hk.
        rewrite Forall_forall in P. now apply P.
    + inversion Hdel; subst. now split.
Qed.

Lemma reachable_ids_positive_unique_witness :
  reachable three_records /\
  NoDup (dict_keys three_records) /\
  Forall (fun k => 0 < k) (dict_keys three_records).
Proof.
  assert (H : reachable three_records) by apply reach_create.
  split; [exact H|].
  exact (reachable_ids_positive_unique three_records H).
Defined.

(* ================================================================= *)
(** ** Loading, orphan keys and clearing *)

(** X15.  Key rows without cipher rows: [db_decryption] asks whether
    to clear [key_table] and returns no record.  On "yes" it empties
    the key table and restarts its sequence, and from then on loading
    returns no record and opens no box; on any other answer the store
    stays as it is. *)
Theorem orphan_keys_resolution (d : db) :
  passw_table d = [] -> key_table d <> [] ->
  (exists question info,
      db_decryption true d
      = Ok ([], clear_db "key_table" d,
            [askquestion ERROR_BOX_TITLE question;
             showinfo INFO_BOX_TITLE info])) /\
  clear_db "key_table" d = mkDb [] (passw_seq d) [] 0 /\
  (forall yes,
      db_decryption yes (clear_db "key_table" d)
      = Ok ([], clear_db "key_table" d, [])) /\
  (exists question info,
      db_decryption false d
      = Ok ([], d, [askquestion ERROR_BOX_TITLE question;
                    showinfo INFO_BOX_TITLE info])).
Proof.
  intros Hp Hk. apply is_empty_cons in Hk.
  assert (E : forall yes, db_decryption yes d
              = if yes
                then Ok ([], clear_db "key_table" d,
                         [askquestion ERROR_BOX_TITLE
                            "Error: passw_table is empty, but key_table contains records. Clear 'key_table'?";
                          showinfo INFO_BOX_TITLE "'key_table' cleared."])
                else Ok ([], d,
                         [askquestion ERROR_BOX_TITLE
                            "Error: passw_table is empty, but key_table contains records. Clear 'key_table'?";
                          showinfo INFO_BOX_TITLE
                            "'key_table' not cleared. Program may not function correctly."])).
  { intros yes. unfold db_decryption. rewrite check_db_eq, Hp, Hk. reflexivity. }
  split; [rewrite E; eauto|].
  split; [unfold clear_db; simpl; now rewrite Hp|].
  split; [|rewrite E; eauto].
  intros yes. unfold db_decryption. rewrite check_db_eq.
  unfold clear_db. simpl. now rewrite Hp.
Qed.

Lemma orphan_keys_resolution_witness :
  passw_table (mkDb [] 0 (key_table store_2_3) 3) = [] /\
  key_table (mkDb [] 0 (key_table store_2_3) 3) <> [] /\
  forall yes,
    db_decryption yes (clear_db "key_table" (mkDb [] 0 (key_table store_2_3) 3))
    = Ok ([], clear_db "key_table" (mkDb [] 0 (key_table store_2_3) 3), []).
Proof.
  assert (H1 : passw_table (mkDb [] 0 (key_table store_2_3) 3) = [])
    by reflexivity.
  assert (H2 : key_table (mkDb [] 0 (key_table store_2_3) 3) <> [])
    by discriminate.
  split; [exact H1|]. split; [exact H2|].
  exact (proj1 (proj2 (proj2 (orphan_keys_resolution _ H1 H2)))).
Defined.

(** X16.  Loading never writes: whenever [db_decryption] returns, the
    cipher table is as it was, and so is the key table unless there
    were key rows without cipher rows and the user agreed to clear
    them. *)
Theorem db_decryption_keeps_store (yes : bool) (d : db)
        (records : list tuple) (d' : db) (boxes : list dialog) :
  db_decryption yes d = Ok (records, d', boxes) ->
  passw_table d' = passw_table d /\ passw_seq d' = passw_seq d /\
  (d' = d \/
   (yes = true /\ passw_table d = [] /\ key_table d <> [] /\
    key_table d' = [] /\ key_seq d' = 0)).
Proof.
  unfold db_decryption. rewrite check_db_eq.
  destruct (passw_table d) as [|r rs] eqn:Ep;
    destruct (key_table d) as [|k ks] eqn:Ek;
    cbn [is_empty negb andb Z.eqb Pos.eqb].
  - intros H. inversion H; subst. auto.
  - destruct yes; intros H; inversion H; subst; [|auto].
    unfold clear_db. simpl. rewrite Ep.
    repeat split; trivial. right. repeat split; trivial. discriminate.
  - intros H. inversion H; subst. auto.
  - set (databox := append_to_list [] (r :: rs)).
    set (keybox := append_to_list [] (k :: ks)).
    destruct (List.length databox =? List.length keybox)%nat.
    + destruct (decrypt_rows databox keybox 0 (List.length databox) [])
        as [recs|e|]; cbn [bind]; intros H; inversion H; subst. auto.
    + destruct (List.length keybox <? List.length databox)%nat;
        [|destruct (List.length databox <? List.length keybox)%nat];
        (intros H; inversion H; subst; auto).
Qed.

Lemma db_decryption_keeps_store_witness :
  db_decryption true store_3_3
  = Ok ([record "hel" "lo" "p"; record "`ab" "bc" "c"; record "xyz" "tu" "u"],
        store_3_3, []) /\
  passw_table store_3_3 = passw_table store_3_3.
Proof.
  assert (H : db_decryption true store_3_3
              = Ok ([record "hel" "lo" "p"; record "`ab" "bc" "c";
                     record "xyz" "tu" "u"], store_3_3, []))
    by reflexivity.
  split; [exact H|].
  exact (proj1 (db_decryption_keeps_store true store_3_3 _ _ _ H)).
Defined.

(** X17.  [clear_records] called from a window clears nothing without
    a "yes": with any other answer the record set and the store are as
    they were.  It reports completion exactly when called from the
    main window and confirmed, and then both tables and the record set
    are empty.  For a window other than "dev" and "main" it does
    nothing and asks nothing. *)
Theorem clear_records_needs_confirmation
        (table w : string) (rd : dict) (clear_dict everything yes : bool)
        (d : db) (complete : bool) (rd' : dict) (d' : db) (boxes : list dialog) :
  w <> ""%string ->
  clear_records_from table (Some w) rd clear_dict everything yes d
  = (complete, rd', d', boxes) ->
  (yes = false -> complete = false /\ rd' = rd /\ d' = d) /\
  (complete = true <-> w = "main"%string /\ yes = true) /\
  (complete = true -> rd' = [] /\ passw_table d' = [] /\ key_table d' = []) /\
  (w <> "dev"%string -> w <> "main"%string ->
   complete = false /\ rd' = rd /\ d' = d /\ boxes = []).
Proof.
  intros Hw. unfold clear_records_from.
  destruct (String.eqb_spec w "") as [|_]; [congruence|].
  destruct (String.eqb_spec w "dev") as [->|Hdev].
  - destruct (String.eqb_spec table "passw_table");
      [|destruct (String.eqb_spec table "key_table");
        [|destruct (String.eqb_spec table "log_table")]];
      destruct yes; intros H; inversion H; subst;
      repeat split; try congruence; try tauto;
      try (intros [? ?]; discriminate).
  - destruct (String.eqb_spec w "main") as [->|Hmain].
    + destruct yes; intros H; inversion H; subst;
        repeat split; try congruence; try tauto;
        try (intros [? ?]; discriminate).
    + intros H; inversion H; subst.
      repeat split; try congruence; try tauto.
Qed.

Lemma clear_records_needs_confirmation_witness :
  "main"%string <> ""%string /\
  clear_records_from "both" (Some "main"%string) three_records true false false
                     store_3_3
  = (false, three_records, store_3_3,
     [askquestion "Warning" "Are you sure? These changes are irreversible.";
      showinfo INFO_BOX_TITLE "Records not cleared."]) /\
  (false = true <-> "main"%string = "main"%string /\ false = true).
Proof.
  assert (H1 : "main"%string <> ""%string) by discriminate.
  assert (H2 : clear_records_from "both" (Some "main"%string) three_records
                                  true false false store_3_3
               = (false, three_records, store_3_3,
                  [askquestion "Warning" "Are you sure? These changes are irreversible.";
                   showinfo INFO_BOX_TITLE "Records not cleared."]))
    by reflexivity.
  split; [exact H1|]. split; [exact H2|].
  exact (proj1 (proj2 (clear_records_needs_confirmation _ _ _ _ _ _ _ _ _ _ _
                         H1 H2))).
Defined.

(** X18.  Cipher rows and key rows are paired by position, not by
    [personID]: on a store with as many key rows as cipher rows,
    [db_decryption] returns, for each position, the three fields of
    the cipher row decrypted with the three keys of the key row at the
    same position, whatever the two [personID]s are; it opens no box
    and leaves the store as it is. *)
Theorem db_decryption_by_position
        (yes : bool) (d : db) (records : list tuple) :
  NoDup (passw_table d) -> NoDup (key_table d) ->
  passw_table d <> [] ->
  List.length (passw_table d) = List.length (key_table d) ->
  List.length records = List.length (passw_table d) ->
  (forall i rec, nth_error records i = Some rec ->
     exists id id' x0 x1 x2 k0 k1 k2 t0 t1 t2,
       nth_error (passw_table d) i = Some [id; x0; x1; x2] /\
       nth_error (key_table d) i = Some [id'; k0; k1; k2] /\
       decrypt (str x0) k0 = Ok t0 /\
       decrypt (str x1) k1 = Ok t1 /\
       decrypt (str x2) k2 = Ok t2 /\
       rec = [PStr t0; PStr t1; PStr t2]) ->
  db_decryption yes d = Ok (records, d, []).
Proof.
  intros Np Nk Hne Hl Hr Hrows.
  unfold db_decryption. rewrite check_db_eq.
  rewrite !append_to_list_NoDup by now rewrite app_nil_l.
  rewrite !app_nil_l.
  assert (Hk : key_table d <> []).
  { intros E. rewrite E in Hl. destruct (passw_table d); [congruence | discriminate]. }
  apply is_empty_cons in Hne, Hk. rewrite Hne, Hk.
  cbn [negb andb Z.eqb Pos.eqb].
  rewrite Hl, Nat.eqb_refl, <- Hl.
  rewrite decrypt_rows_Ok with (records := records); trivial.
  simpl. lia.
Qed.

Lemma db_decryption_by_position_witness :
  let d := mkDb [row 5 "kab" "no" "q"] 5 [row 9 "3 -4 -10" "2 0" "1"] 9 in
  NoDup (passw_table d) /\ NoDup (key_table d) /\
  db_decryption true d = Ok ([record "hel" "lo" "p"], d, []).
Proof.
  set (d := mkDb [row 5 "kab" "no" "q"] 5 [row 9 "3 -4 -10" "2 0" "1"] 9).
  assert (H1 : NoDup (passw_table d)) by (repeat constructor; simpl; tauto).
  assert (H2 : NoDup (key_table d)) by (repeat constructor; simpl; tauto).
  split; [exact H1|]. split; [exact H2|].
  refine (db_decryption_by_position true d [record "hel" "lo" "p"] H1 H2 _ _ _ _).
  - discriminate.
  - reflexivity.
  - reflexivity.
  - intros [|i] rec Hi; [|destruct i; discriminate].
    inversion Hi; subst rec.
    exists (PInt 5), (PInt 9), (PStr (lit "kab")), (PStr (lit "no")),
           (PStr (lit "q")), (PStr (lit "3 -4 -10")), (PStr (lit "2 0")),
           (PStr (lit "1")), (lit "hel"), (lit "lo"), (lit "p").
    repeat split.
Defined.

(* ================================================================= *)
(** ** Searching and exporting *)

Lemma search_dict_eq (lower : pystr -> pystr) (rd : dict) (text : pystr)
      (site un pw : bool) :
  search_dict lower rd text site un pw =
  if site || un || pw then
    match text with
    | [] => inr (map snd rd, map fst rd, searched_of site un pw)
    | _ :: _ =>
        match search_loop lower text (fields_of site un pw) rd [] [] with
        | inl e => inl e
        | inr (box, indices) => inr (box, indices, searched_of site un pw)
        end
    end
  else inr ([], [], []).
Proof.
  unfold search_dict.
  destruct site, un, pw, text; reflexivity.
Qed.

Lemma any_field_text_record (lower : pystr -> pystr) (text : pystr)
      (site un pw : bool) (k : Z) (a b c : pystr) :
  any_field lower text [PStr a; PStr b; PStr c] (fields_of site un pw)
  = inr (hit lower text site un pw (k, [PStr a; PStr b; PStr c])).
Proof.
  unfold hit, fields_of. cbn [snd].
  destruct site, un, pw; simpl;
    repeat match goal with
           | |- context [contains ?x ?y] => destruct (contains x y)
           end; reflexivity.
Qed.

Lemma search_loop_text_records (lower : pystr -> pystr) (text : pystr)
      (site un pw : bool) (entries : dict) :
  Forall (fun kv => exists a b c, snd kv = [PStr a; PStr b; PStr c]) entries ->
  forall box indices,
    search_loop lower text (fields_of site un pw) entries box indices
    = inr (box ++ map snd (filter (hit lower text site un pw) entries),
           indices ++ map fst (filter (hit lower text site un pw) entries)).
Proof.
  induction 1 as [|[k v] entries (a & b & c & E) _ IH]; intros box indices.
  - simpl. now rewrite !app_nil_r.
  - cbn [snd] in E. subst v. cbn [search_loop filter].
    rewrite (any_field_text_record lower text site un pw k).
    destruct (hit lower text site un pw (k, [PStr a; PStr b; PStr c])).
    + rewrite IH. cbn [map fst snd]. now rewrite <- !app_assoc.
    + apply IH.
Qed.

(** X19.  [search_dict] on text records never raises.  With a text to
    search and at least one field selected it returns exactly the
    records that have the text (case folded by [lower]) inside one of
    the selected fields, in the order of the record set, each with its
    id at the same position; with an empty text it returns every
    record; with no field selected it returns nothing. *)
Theorem search_dict_text_records
        (lower : pystr -> pystr) (rd : dict) (text : pystr) (site un pw : bool) :
  Forall (fun kv => exists a b c, snd kv = [PStr a; PStr b; PStr c]) rd ->
  search_dict lower rd text site un pw =
  if site || un || pw then
    match text with
    | [] => inr (map snd rd, map fst rd, searched_of site un pw)
    | _ :: _ =>
        inr (map snd (filter (hit lower text site un pw) rd),
             map fst (filter (hit lower text site un pw) rd),
             searched_of site un pw)
    end
  else inr ([], [], []).
Proof.
  intros T. rewrite search_dict_eq.
  destruct (site || un || pw); [|reflexivity].
  destruct text as [|c text]; [reflexivity|].
  now rewrite search_loop_text_records.
Qed.

Lemma search_dict_text_records_witness :
  Forall (fun kv => exists a b c, snd kv = [PStr a; PStr b; PStr c])
         three_records /\
  search_dict (fun s => s) three_records (lit "an") true true false
  = inr ([record "Google" "ann" "pw1"; record "Bank" "cat" "pw3"],
         [1; 3], ["Site"%string; "Username"%string]).
Proof.
  assert (H : Forall (fun kv => exists a b c, snd kv = [PStr a; PStr b; PStr c])
                     three_records)
    by (repeat constructor; do 3 eexists; reflexivity).
  split; [exact H|].
  exact (search_dict_text_records (fun s => s) three_records (lit "an")
           true true false H).
Defined.

(** X20.  After a load that found cipher rows and no key row, the
    record set holds the raw rows, whose first field is the
    [personID]: a search of the "Site" field for any text then raises
    AttributeError, [lower] being asked of an integer. *)
Theorem search_raw_rows_raises
        (lower : pystr -> pystr) (yes : bool) (d : db)
        (personID : Z) (fields : tuple) (rows : list tuple)
        (c : Z) (text : pystr) (un pw : bool) :
  passw_table d = (PInt personID :: fields) :: rows ->
  key_table d = [] ->
  exists rd,
    create_dict yes d = Ok (rd, d, []) /\
    dict_get rd 1 = Ok (PInt personID :: fields) /\
    search_dict lower rd (c :: text) true un pw = inl Attribute_error.
Proof.
  intros Hp Hk.
  destruct (append_to_list_extends rows [PInt personID :: fields])
    as (tail & Et).
  assert (E : append_to_list [] ((PInt personID :: fields) :: rows)
              = (PInt personID :: fields) :: tail) by exact Et.
  unfold create_dict, db_decryption.
  rewrite check_db_eq, Hp, Hk, E.
  cbn [is_empty negb andb Z.eqb Pos.eqb append_to_list bind].
  rewrite dict_of_enumerate. cbn [enumerate].
  eexists. split; [reflexivity|]. split; [reflexivity|].
  rewrite search_dict_eq. cbn [orb].
  unfold fields_of. cbn [List.app search_loop any_field nth_error]. reflexivity.
Qed.

Lemma search_raw_rows_raises_witness :
  passw_table store_2_0 = (PInt 1 :: record "kab" "no" "q")
                          :: [row 2 "abc" "de" "f"] /\
  key_table store_2_0 = [] /\
  exists rd,
    create_dict true store_2_0 = Ok (rd, store_2_0, []) /\
    dict_get rd 1 = Ok (PInt 1 :: record "kab" "no" "q") /\
    search_dict (fun s => s) rd (lit "k") true false false = inl Attribute_error.
Proof.
  assert (H1 : passw_table store_2_0
               = (PInt 1 :: record "kab" "no" "q") :: [row 2 "abc" "de" "f"])
    by reflexivity.
  assert (H2 : key_table store_2_0 = []) by reflexivity.
  split; [exact H1|]. split; [exact H2|].
  exact (search_raw_rows_raises (fun s => s) true store_2_0 1 _ _
           107 [] false false H1 H2).
Defined.

Lemma export_plain_db_app (stored : pyval -> pyval) (good : dict) :
  forall rows seq (rest : dict),
  Forall (fun r : tuple => (3 <= List.length r)%nat) (map snd good) ->
  export_plain_db stored (good ++ rest) rows seq
  = export_plain_db stored rest
      (rows ++ number (seq + 1)
                 (map (map stored) (map (firstn 3) (map snd good))))
      (seq + Z.of_nat (List.length good)).
Proof.
  induction good as [|[k r] good IH]; intros rows seq rest H.
  - simpl. now rewrite app_nil_r, Z.add_0_r.
  - cbn [map snd] in H. apply Forall_cons_iff in H. destruct H as [Hr H].
    destruct r as [|site [|username [|password r]]]; simpl in Hr; try lia.
    cbn [List.app export_plain_db]. rewrite IH by assumption.
    cbn [map snd firstn number List.length]. rewrite <- app_assoc. cbn [List.app].
    f_equal. lia.
Qed.

(** X21.  [export_plain_db] writes one row per record, in the order of
    the record set, made of the next [personID] and what the store
    makes of the first three fields of the record.  It stops with
    IndexError at the first record of fewer than three fields: the
    records before it are in the export file, that record and those
    after it are not. *)
Theorem export_plain_db_spec (stored : pyval -> pyval) (good : dict)
        (rows : list tuple) (seq : Z) :
  Forall (fun r : tuple => (3 <= List.length r)%nat) (map snd good) ->
  export_plain_db stored good rows seq
  = (rows ++ number (seq + 1)
               (map (map stored) (map (firstn 3) (map snd good))),
     seq + Z.of_nat (List.length good), None) /\
  (forall k short rest,
      (List.length short < 3)%nat ->
      export_plain_db stored (good ++ (k, short) :: rest) rows seq
      = (rows ++ number (seq + 1)
                   (map (map stored) (map (firstn 3) (map snd good))),
         seq + Z.of_nat (List.length good), Some IndexError)).
Proof.
  intros H. split.
  - rewrite <- (app_nil_r good) at 1. now rewrite export_plain_db_app.
  - intros k short rest Hs. rewrite export_plain_db_app by assumption.
    destruct short as [|a [|b [|c short]]]; simpl in Hs; try lia; reflexivity.
Qed.

Lemma export_plain_db_spec_witness :
  Forall (fun r : tuple => (3 <= List.length r)%nat) (map snd three_records) /\
  export_plain_db keeps_text three_records [] 0
  = ([row 1 "Google" "ann" "pw1"; row 2 "Mail" "bob" "pw2";
      row 3 "Bank" "cat" "pw3"], 3, None).
Proof.
  assert (H : Forall (fun r : tuple => (3 <= List.length r)%nat)
                     (map snd three_records))
    by (repeat constructor; simpl; lia).
  split; [exact H|].
  exact (proj1 (export_plain_db_spec keeps_text three_records [] 0 H)).
Defined.

Lemma filter_remove_length (l : list Z) (j : Z) :
  NoDup l -> In j l ->
  S (List.length (filter (fun k => negb (k =? j)) l)) = List.length l.
Proof.
  induction l as [|a l IH]; intros N H; [destruct H|].
  inversion N as [|? ? Hn N']; subst. simpl.
  destruct (a =? j) eqn:E; simpl.
  - apply Z.eqb_eq in E. subst a. f_equal.
    rewrite forallb_filter_id; [reflexivity|].
    apply forallb_forall. intros x Hx. apply negb_true_iff, Z.eqb_neq.
    intros ->. contradiction.
  - f_equal. apply IH; trivial. destruct H as [->|H]; [|assumption].
    rewrite Z.eqb_refl in E. discriminate.
Qed.

(** X22.  How a deletion makes the next addition lose a record: on a
    record set with the ids 1, ..., n, deleting any record but the
    last and then adding one gives the new record the id n, which the
    last record still has; the last record is replaced, no id n + 1
    appears, and the set is left with n - 1 records. *)
Theorem add_after_delete_replaces_last
        (rd : dict) (n : nat) (j : Z) (site un pw : pystr) :
  dict_keys rd = ids_from 1 n ->
  1 <= j < Z.of_nat n ->
  exists rd1 boxes,
    delete_record true rd j = Ok (rd1, boxes) /\
    In (Z.of_nat n) (dict_keys rd1) /\
    dict_get rd1 (Z.of_nat n) = dict_get rd (Z.of_nat n) /\
    let rd2 := fst (add_new_record true site un pw rd1) in
    dict_get rd2 (Z.of_nat n) = Ok [PStr site; PStr un; PStr pw] /\
    dict_keys rd2 = dict_keys rd1 /\
    ~ In (Z.of_nat n + 1) (dict_keys rd2) /\
    S (List.length rd2) = n.
Proof.
  intros Hk Hj.
  assert (Hin : In j (dict_keys rd)) by (rewrite Hk, ids_from_In; lia).
  pose proof (delete_record_present rd j Hin) as E.
  pose proof (dict_keys_filter rd j) as K.
  assert (O : forall k, k <> j ->
                dict_get (filter (fun kv => negb (fst kv =? j)) rd) k
                = dict_get rd k)
    by (intros k Hne; now apply dict_get_filter_other).
  set (rd1 := filter (fun kv => negb (fst kv =? j)) rd) in *.
  eexists rd1, _. split; [exact E|].
  assert (Hl : S (List.length rd1) = n).
  { assert (L : List.length rd1 = List.length (dict_keys rd1))
      by (unfold dict_keys; now rewrite length_map).
    rewrite L, K, filter_remove_length; trivial.
    - now rewrite Hk, ids_from_length.
    - rewrite Hk. apply ids_from_NoDup. }
  assert (Hn : In (Z.of_nat n) (dict_keys rd1)).
  { rewrite K. apply filter_In. split.
    - rewrite Hk, ids_from_In. lia.
    - apply negb_true_iff, Z.eqb_neq. lia. }
  split; [exact Hn|]. split; [apply O; lia|].
  cbv zeta. unfold add_new_record. cbn [fst].
  replace (Z.of_nat (List.length rd1) + 1) with (Z.of_nat n) by lia.
  split; [apply dict_get_set_same|].
  assert (K2 : dict_keys (dict_set rd1 (Z.of_nat n) [PStr site; PStr un; PStr pw])
               = dict_keys rd1) by now apply dict_keys_set_present.
  split; [exact K2|]. split.
  - rewrite K2, K. intros H. apply filter_In in H. destruct H as [H _].
    rewrite Hk, ids_from_In in H. lia.
  - apply (f_equal (@List.length Z)) in K2. unfold dict_keys in K2.
    rewrite !length_map in K2. now rewrite K2.
Qed.

Lemma add_after_delete_replaces_last_witness :
  dict_keys three_records = ids_from 1 3 /\
  1 <= 1 < Z.of_nat 3 /\
  exists rd1 boxes,
    delete_record true three_records 1 = Ok (rd1, boxes) /\
    dict_get (fst (add_new_record true (lit "Shop") (lit "dan") (lit "pw4") rd1))
             (Z.of_nat 3)
    = Ok (record "Shop" "dan" "pw4").
Proof.
  assert (H1 : dict_keys three_records = ids_from 1 3) by reflexivity.
  assert (H2 : 1 <= 1 < Z.of_nat 3) by (simpl; lia).
  split; [exact H1|]. split; [exact H2|].
  destruct (add_after_delete_replaces_last three_records 3 1
              (lit "Shop") (lit "dan") (lit "pw4") H1 H2)
    as (rd1 & boxes & E & _ & _ & G & _).
  exists rd1, boxes. split; [exact E | exact G].
Defined.
